(** * BCOG_regional: the geometry flattener, the selection aggregator and the
    session flag of [streamlit_app.py], embedded and verified.

    The dashboard script has three pieces of logic:
    - [extract_coordinates] (lines 26-36), which turns a shapely geometry
      into two coordinate sequences for a plotly trace;
    - the selection block (lines 58-59 and 116-130), which filters the
      region table by the chosen names and sums the [Area] column;
    - the [show_new_page] flag kept in [st.session_state] (lines 186-194).

    Python exceptions are modelled by the [result] type, Python [None] in a
    coordinate list by [None : option num], pandas missing values by [None]
    in a column, and the session dictionary by a [gmap]. *)

From Stdlib Require Import QArith Lqa.
From stdpp Require Import list strings gmap sorting.

Set Default Proof Using "Type".

(** ** Python exceptions *)

Inductive exn : Type :=
| IndexError
| ValueError
| KeyError.

Inductive result (A : Type) : Type :=
| Ok (a : A)
| Raise (e : exn).

Arguments Ok {A} a.
Arguments Raise {A} e.

Definition returns {A : Type} (r : result A) : Prop :=
  match r with Ok _ => True | Raise _ => False end.

(** ** Python's [zip] applied to unpacked rows

    [zip] called on the rows of a sequence (the starred call of lines 28 and
    32) yields one tuple per column, as many as the shortest row has
    components, and none at all when there is no row. *)

Fixpoint zip_star {A : Type} (rows : list (list A)) : list (list A) :=
  match rows with
  | [] => []
  | r :: rest =>
      match rest with
      | [] => map (λ a, [a]) r
      | _ :: _ => zip_with cons r (zip_star rest)
      end
  end.

(** ** Shapely geometries *)

Section Geometry.
Context {num : Type}.

(** A shapely coordinate sequence has one dimension for all its points:
    iterating it yields 2-tuples, or 3-tuples when the geometry has a z. *)
Inductive CoordinateSequence : Type :=
| Coords2D (pts : list (num * num))
| Coords3D (pts : list (num * num * num)).

(** What iterating the sequence yields: one tuple per point. *)
Definition tuples (cs : CoordinateSequence) : list (list num) :=
  match cs with
  | Coords2D pts => map (λ p, [fst p; snd p]) pts
  | Coords3D pts => map (λ p, [fst (fst p); snd (fst p); snd p]) pts
  end.

Record LinearRing : Type := { coords : CoordinateSequence }.

Record polygon : Type := {
  exterior : LinearRing;
  interiors : list LinearRing
}.

(** The geometry classes that are neither [Polygon] nor [MultiPolygon];
    [NoGeometry] is the Python [None] of a row without a shape. *)
Inductive other_geometry : Type :=
| Point
| LineString
| MultiPoint
| MultiLineString
| GeometryCollection
| NoGeometry.

Inductive geometry : Type :=
| Polygon (p : polygon)
| MultiPolygon (geoms : list polygon)
| OtherGeometry (k : other_geometry).

Definition isinstance_Polygon (g : geometry) : bool :=
  match g with Polygon _ => true | _ => false end.

Definition isinstance_MultiPolygon (g : geometry) : bool :=
  match g with MultiPolygon _ => true | _ => false end.

(** A flattened path: numbers, with [None] as the gap sentinel. *)
Local Abbreviation path := (list (option num)).

(** The loop of lines 31-34, with the two accumulators [x_coords] and
    [y_coords] passed explicitly.  The assignment to [x, y] unpacks exactly two
    tuples and raises [ValueError] on any other count. *)
Fixpoint extend_loop (geoms : list polygon) (x_coords y_coords : path)
  : result (path * path) :=
  match geoms with
  | [] => Ok (x_coords, y_coords)
  | poly :: geoms' =>
      match zip_star (tuples (coords (exterior poly))) with
      | [x; y] =>
          extend_loop geoms'
            (x_coords ++ (Some <$> x) ++ [None])
            (y_coords ++ (Some <$> y) ++ [None])
      | _ => Raise ValueError
      end
  end.

(** Lines 26-36.  In the [Polygon] branch the two components of the
    returned pair are evaluated left to right, each indexing a fresh
    [list(zip(...))]; an index out of range raises [IndexError]. *)
Definition extract_coordinates (g : geometry) : result (path * path) :=
  match g with
  | Polygon p =>
      match zip_star (tuples (coords (exterior p))) !! 0%nat with
      | None => Raise IndexError
      | Some x =>
          match zip_star (tuples (coords (exterior p))) !! 1%nat with
          | None => Raise IndexError
          | Some y => Ok (Some <$> x, Some <$> y)
          end
      end
  | MultiPolygon geoms => extend_loop geoms [] []
  | OtherGeometry _ => Ok ([], [])
  end.

(** *** The ring's coordinates, read off the data *)

Definition ring_xs (cs : CoordinateSequence) : list num :=
  match cs with
  | Coords2D pts => map fst pts
  | Coords3D pts => map (λ p, fst (fst p)) pts
  end.

Definition ring_ys (cs : CoordinateSequence) : list num :=
  match cs with
  | Coords2D pts => map snd pts
  | Coords3D pts => map (λ p, snd (fst p)) pts
  end.

Definition ring_zs (cs : CoordinateSequence) : list num :=
  match cs with
  | Coords2D pts => []
  | Coords3D pts => map snd pts
  end.

Definition ring_length (cs : CoordinateSequence) : nat :=
  match cs with
  | Coords2D pts => length pts
  | Coords3D pts => length pts
  end.

Definition is_2d (cs : CoordinateSequence) : Prop :=
  match cs with Coords2D _ => True | Coords3D _ => False end.

(** The number of gap sentinels of a path. *)
Definition gap_count (xs : path) : nat :=
  length (filter (λ o, o = None) xs).

(** Two paths break at the same places. *)
Definition same_gaps (xs ys : path) : Prop :=
  Forall2 (λ a b, a = None ↔ b = None) xs ys.

(** The flattening as the specification words it: every sub-polygon, in the
    given order, contributes the chosen coordinate of its ring followed by
    one gap sentinel. *)
Definition ring_then_gap (proj : CoordinateSequence → list num) (poly : polygon)
  : path :=
  (Some <$> proj (coords (exterior poly))) ++ [None].

Definition gapped (proj : CoordinateSequence → list num) (geoms : list polygon)
  : path :=
  concat (ring_then_gap proj <$> geoms).

(** A ring the multi-polygon loop can unpack: two-dimensional, with at least
    one point. *)
Definition unpackable (poly : polygon) : Prop :=
  is_2d (coords (exterior poly)) ∧ ring_length (coords (exterior poly)) ≠ 0%nat.

(** The geometries on which the flattener has a result. *)
Definition flattens (g : geometry) : Prop :=
  match g with
  | Polygon p => ring_length (coords (exterior p)) ≠ 0%nat
  | MultiPolygon geoms => Forall unpackable geoms
  | OtherGeometry _ => True
  end.

(** A path without an empty segment: it does not start with a gap sentinel
    and no gap sentinel directly follows another. *)
Definition no_adjacent_gaps (xs : path) : Prop :=
  ∀ i : nat, xs !! i = Some None → xs !! S i ≠ Some None.

Definition no_empty_segment (xs : path) : Prop :=
  xs !! 0%nat ≠ Some None ∧ no_adjacent_gaps xs.

(** The exception each branch can raise. *)
Definition branch_error (g : geometry) : exn :=
  match g with
  | Polygon _ => IndexError
  | _ => ValueError
  end.

End Geometry.

Arguments CoordinateSequence : clear implicits.
Arguments LinearRing : clear implicits.
Arguments polygon : clear implicits.
Arguments geometry : clear implicits.

Abbreviation path num := (list (option num)).

(** ** Sample geometries, over integer coordinates *)

Definition ring_of (pts : list (Z * Z)) : polygon Z :=
  {| exterior := {| coords := Coords2D pts |}; interiors := [] |}.

Definition triangle_a : polygon Z := ring_of [(0, 0); (1, 0); (1, 1)]%Z.
Definition triangle_b : polygon Z := ring_of [(2, 2); (3, 2); (3, 3)]%Z.

(** shapely's [POLYGON EMPTY]: the exterior ring has no coordinate. *)
Definition empty_polygon : polygon Z := ring_of [].

(** A polygon with z-values: its coordinates are 3-tuples. *)
Definition polygon_z : polygon Z :=
  {| exterior := {| coords := Coords3D [(0, 0, 5); (1, 0, 5); (1, 1, 5)]%Z |};
     interiors := [] |}.

(** ** The region table

    [gdf] is the GeoDataFrame read from the shapefile, one row per region.
    A cell of a column may be missing (pandas NaN or [None]); line 58 drops
    such names and [Series.sum] skips such areas.  Sums are taken over the
    rationals. *)

Record region : Type := {
  REGION_NAM : option string;
  Rate : option Q;
  Area : option Q;
  row_geometry : geometry Q
}.

Abbreviation GeoDataFrame := (list region).

(** [Series.dropna()]. *)
Definition dropna {A : Type} (s : list (option A)) : list A := omap id s.

(** [Series.unique()]: the distinct values, in order of first appearance. *)
Fixpoint unique (s : list string) : list string :=
  match s with
  | [] => []
  | x :: s' => x :: filter (λ y, y ≠ x) (unique s')
  end.

(** Python's [sorted] on strings. *)
Definition sorted (l : list string) : list string := merge_sort String.le l.

(** Line 58: the options offered by the multi-select control. *)
Definition region_names (gdf : GeoDataFrame) : list string :=
  sorted (unique (dropna (REGION_NAM <$> gdf))).

(** [Series.isin(values)]: a boolean mask; a missing cell is in no list of
    strings. *)
Definition isin (s : list (option string)) (values : list string) : list bool :=
  (λ o, match o with
        | Some n => bool_decide (n ∈ values)
        | None => false
        end) <$> s.

(** [df[mask]] for a boolean mask over the rows of [df]: the rows whose mask
    bit is set, in the order of [df].  The mask of line 117 is computed from a
    column of the same table, so the two always have the same length. *)
Fixpoint boolean_index {A : Type} (df : list A) (mask : list bool) : list A :=
  match df, mask with
  | r :: df', b :: mask' =>
      if b then r :: boolean_index df' mask' else boolean_index df' mask'
  | _, _ => []
  end.

(** Line 117. *)
Definition selected_gdf (gdf : GeoDataFrame) (selected_regions : list string)
  : GeoDataFrame :=
  boolean_index gdf (isin (REGION_NAM <$> gdf) selected_regions).

(** Line 119: the three columns shown in the table. *)
Definition attributes (r : region) : option string * option Q * option Q :=
  (REGION_NAM r, Rate r, Area r).

Definition attribute_view (df : GeoDataFrame)
  : list (option string * option Q * option Q) :=
  attributes <$> df.

(** [Series.sum()]: a running total from 0 that skips missing cells. *)
Definition add_cell (acc : Q) (a : option Q) : Q :=
  match a with Some v => (acc + v)%Q | None => acc end.

Definition Series_sum (s : list (option Q)) : Q := fold_left add_cell s 0%Q.

(** Lines 121-122 and the second pie slice of line 127. *)
Definition selected_area (gdf : GeoDataFrame) (selected_regions : list string) : Q :=
  Series_sum (Area <$> selected_gdf gdf selected_regions).

Definition total_area (gdf : GeoDataFrame) : Q :=
  Series_sum (Area <$> gdf).

Definition remainder (gdf : GeoDataFrame) (selected_regions : list string) : Q :=
  (total_area gdf - selected_area gdf selected_regions)%Q.

(** *** An [Area] column of integers

    [Series_sum] above is the exact sum.  When the attribute field of the
    shapefile holds integers, pandas reads the column with dtype int64, which
    has no missing cell, and [Series.sum] and the subtraction of line 127 are
    64-bit two's-complement operations that wrap around without an error.
    The table is given here by its two columns. *)

Definition int64_wrap (z : Z) : Z := ((z + 2 ^ 63) mod 2 ^ 64 - 2 ^ 63)%Z.

Definition Series_sum_int64 (s : list Z) : Z :=
  fold_left (λ acc a, int64_wrap (acc + a)) s 0%Z.

(** Lines 117 and 121: the [Area] cells of the rows the mask keeps, summed. *)
Definition selected_area_int64 (names : list (option string)) (areas : list Z)
    (selected_regions : list string) : Z :=
  Series_sum_int64 (boolean_index areas (isin names selected_regions)).

(** Line 122. *)
Definition total_area_int64 (areas : list Z) : Z := Series_sum_int64 areas.

(** The second pie value of line 127. *)
Definition remainder_int64 (names : list (option string)) (areas : list Z)
    (selected_regions : list string) : Z :=
  int64_wrap (total_area_int64 areas
              - selected_area_int64 names areas selected_regions).

(** Three regions, two of them with an area of 2^62. *)
Definition large_names : list (option string) := [Some "A"; Some "B"; Some "C"].
Definition large_areas : list Z := [1; 2 ^ 62; 2 ^ 62]%Z.

(** What lines 116-130 put on the page: the attribute table and the two pie
    values.  The block runs only for a non-empty selection. *)
Record selection_display : Type := {
  dataframe : list (option string * option Q * option Q);
  pie_values : Q * Q
}.

Definition selection_block (gdf : GeoDataFrame) (selected_regions : list string)
  : option selection_display :=
  match selected_regions with
  | [] => None
  | _ :: _ =>
      Some {| dataframe := attribute_view (selected_gdf gdf selected_regions);
              pie_values := (selected_area gdf selected_regions,
                             (total_area gdf - selected_area gdf selected_regions)%Q) |}
  end.

(** The regions whose name is in the selection, in table order. *)
Definition name_selected (sel : list string) (r : region) : Prop :=
  ∃ n, REGION_NAM r = Some n ∧ n ∈ sel.

Global Instance name_selected_dec sel r : Decision (name_selected sel r).
Proof.
  unfold name_selected. destruct (REGION_NAM r) as [n|].
  - destruct (decide (n ∈ sel)) as [Hin|Hout].
    + left. by exists n.
    + right. intros (m & [= <-] & Hm). by apply Hout.
  - right. by intros (m & [=] & _).
Defined.

(** ** A sample table: the example of the specification *)

Definition unit_square : geometry Q :=
  Polygon {| exterior := {| coords := Coords2D [(0, 0); (1, 0); (1, 1); (0, 1); (0, 0)]%Q |};
             interiors := [] |}.

Definition named_region (name : string) (rate area : Q) : region :=
  {| REGION_NAM := Some name; Rate := Some rate; Area := Some area;
     row_geometry := unit_square |}.

(** A row whose name cell is missing. *)
Definition unnamed_region (rate area : Q) : region :=
  {| REGION_NAM := None; Rate := Some rate; Area := Some area;
     row_geometry := unit_square |}.

Definition sample_gdf : GeoDataFrame :=
  [named_region "A" 1 10; named_region "B" 2 20; named_region "C" 3 5].

Definition gdf_with_unnamed : GeoDataFrame :=
  [named_region "A" 1 10; unnamed_region 2 20].

(** Rows out of alphabetical order, a name carried twice, a missing name. *)
Definition shuffled_gdf : GeoDataFrame :=
  [named_region "C" 3 5; named_region "A" 1 10; unnamed_region 2 20;
   named_region "C" 4 7; named_region "B" 2 20].

(** ** The session flag

    [st.session_state] is a dictionary that outlives the reruns of the script
    within one browser session; it is threaded through each run. *)

Abbreviation session_state := (gmap string bool).

Definition flag : string := "show_new_page".

(** Lines 186-194 for one run of the script.  [clicked] is what [st.button]
    returns: true in the run caused by pressing the button.  The result is the
    session state after the run and whether the new page was rendered. *)
Definition new_page_section (clicked : bool) (ss : session_state)
  : result (session_state * bool) :=
  let ss1 := match ss !! flag with
             | None => <[flag := false]> ss
             | Some _ => ss
             end in
  let ss2 := if clicked then <[flag := true]> ss1 else ss1 in
  match ss2 !! flag with
  | Some shown => Ok (ss2, shown)
  | None => Raise KeyError
  end.

(** A session: the script runs once per element of [clicks], from the state
    the previous run left. Returns the last state and what each run showed. *)
Fixpoint session (clicks : list bool) (ss : session_state)
  : result (session_state * list bool) :=
  match clicks with
  | [] => Ok (ss, [])
  | c :: clicks' =>
      match new_page_section c ss with
      | Raise e => Raise e
      | Ok (ss', shown) =>
          match session clicks' ss' with
          | Raise e => Raise e
          | Ok (ss'', l) => Ok (ss'', shown :: l)
          end
      end
  end.

(** Whether the button has been pressed up to each run, given whether it had
    been pressed before the first. *)
Fixpoint pressed_by (before : bool) (clicks : list bool) : list bool :=
  match clicks with
  | [] => []
  | c :: clicks' => (before || c) :: pressed_by (before || c) clicks'
  end.

(** ** Finding the shapefile among the extracted files (line 51) *)

(** [str.endswith]: the text ends with the given suffix. *)
Definition endswith (s suffix : string) : bool :=
  bool_decide (String.list_ascii_of_string suffix
                 `suffix_of` String.list_ascii_of_string s).

(** The list comprehension of line 51 over the directory listing. *)
Definition shp_candidates (listing : list string) : list string :=
  filter (λ f, endswith f ".shp" = true) listing.

(** Line 51: the first candidate; indexing an empty list raises. *)
Definition shp_file (listing : list string) : result string :=
  match shp_candidates listing !! 0%nat with
  | Some f => Ok f
  | None => Raise IndexError
  end.

(** ** The map of the regions (lines 62-79)

    One filled trace per row of the table, added to the figure in row order.
    An exception of [extract_coordinates] leaves the loop, and the [try] block
    with it, so no figure is drawn.  The hover text is formatted from the three
    cells kept in [text]; the attributes that are the same for every trace
    (mode, fill, line, hoverinfo, showlegend) are left out. *)

Inductive fill : Type := lightblue | lightgrey.

Record Scatter : Type := {
  trace_x : path Q;
  trace_y : path Q;
  fillcolor : fill;
  text : option string * option Q * option Q
}.

(** Line 67: [region_name in selected_regions]; a missing name is in no list
    of strings. *)
Definition is_selected (row : region) (selected_regions : list string) : bool :=
  match REGION_NAM row with
  | Some n => bool_decide (n ∈ selected_regions)
  | None => false
  end.

Fixpoint add_region_traces (rows : list region) (selected_regions : list string)
    (fig : list Scatter) : result (list Scatter) :=
  match rows with
  | [] => Ok fig
  | row :: rows' =>
      match extract_coordinates (row_geometry row) with
      | Raise e => Raise e
      | Ok (x, y) =>
          add_region_traces rows' selected_regions
            (fig ++ [ {| trace_x := x; trace_y := y;
                         fillcolor := if is_selected row selected_regions
                                      then lightblue else lightgrey;
                         text := attributes row |} ])
      end
  end.

Definition region_traces (gdf : GeoDataFrame) (selected_regions : list string)
  : result (list Scatter) :=
  add_region_traces gdf selected_regions [].

Global Instance fill_eq_dec : EqDecision fill.
Proof. solve_decision. Defined.

(** The trace drawn for a row: the row's flattened boundary, filled light
    blue exactly when the row's name is selected, with the row's attributes
    as hover text. *)
Definition trace_of_row (sel : list string) (row : region) (t : Scatter) : Prop :=
  extract_coordinates (row_geometry row) = Ok (trace_x t, trace_y t)
  ∧ (fillcolor t = lightblue ↔ name_selected sel row)
  ∧ text t = attributes row.

(** The rows of the table whose trace is filled light blue. *)
Definition highlighted_rows (gdf : GeoDataFrame) (traces : list Scatter)
  : GeoDataFrame :=
  boolean_index gdf ((λ t, bool_decide (fillcolor t = lightblue)) <$> traces).

(** ** The district markers (lines 82-95)

    [df] is the table read from the CSV file.  Marker sizes are computed over
    the rationals; [None] stands for a result that is not a finite number (a
    missing area, no area at all, or a division by a zero maximum). *)

Module District.
Record row : Type := {
  DISTRICT : option string;
  Rate : option Q;
  Area : option Q;
  x : option Q;
  y : option Q
}.
End District.

(** [Series.max()]: the largest cell, missing cells skipped; missing when there
    is no cell to compare. *)
Definition max_cell (acc a : option Q) : option Q :=
  match acc, a with
  | None, _ => a
  | Some m, Some v => if Qle_bool m v then Some v else Some m
  | Some m, None => Some m
  end.

Definition Series_max (s : list (option Q)) : option Q := fold_left max_cell s None.

(** Line 89, for one district. *)
Definition marker_size (area_max area : option Q) : option Q :=
  match area_max, area with
  | Some m, Some a => if Qeq_bool m 0 then None else Some (20 * a / m + 5)%Q
  | _, _ => None
  end.

Definition marker_sizes (df : list District.row) : list (option Q) :=
  marker_size (Series_max (District.Area <$> df)) <$> (District.Area <$> df).

(** ** The two summary charts (lines 136-137)

    [dropna()] keeps the rows whose two cells are both present;
    [sort_values] orders them by the key column.  pandas does not fix the
    order of rows with equal keys; the properties below do not depend on it. *)

Definition by_name (p q : string * Q) : Prop := String.le (fst p) (fst q).
Definition by_rate (p q : string * Q) : Prop := (snd p <= snd q)%Q.

Global Instance by_name_dec : RelDecision by_name.
Proof. intros p q. unfold by_name. apply _. Defined.

Global Instance by_rate_dec : RelDecision by_rate.
Proof.
  intros p q. unfold by_rate.
  destruct (Qlt_le_dec (snd q) (snd p)) as [Hlt|Hle].
  - right. by apply Qlt_not_le.
  - by left.
Defined.

Definition both_present (name : option string) (v : option Q) : option (string * Q) :=
  match name, v with
  | Some n, Some a => Some (n, a)
  | _, _ => None
  end.

Definition area_summary (gdf : GeoDataFrame) : list (string * Q) :=
  merge_sort by_name (omap (λ r, both_present (REGION_NAM r) (Area r)) gdf).

Definition rate_summary (gdf : GeoDataFrame) : list (string * Q) :=
  merge_sort by_rate (omap (λ r, both_present (REGION_NAM r) (Rate r)) gdf).

(** A table with incomplete rows, and a table of districts. *)
Definition gdf_with_gaps : GeoDataFrame :=
  [named_region "C" 3 5; unnamed_region 2 20;
   {| REGION_NAM := Some "B"; Rate := None; Area := Some 7%Q;
      row_geometry := unit_square |};
   named_region "A" 9 10].

Definition sample_df : list District.row :=
  [ {| District.DISTRICT := Some "D1"; District.Rate := Some 1%Q;
       District.Area := Some 10%Q; District.x := Some 0%Q; District.y := Some 0%Q |};
    {| District.DISTRICT := Some "D2"; District.Rate := Some 2%Q;
       District.Area := Some 40%Q; District.x := Some 1%Q; District.y := Some 1%Q |};
    {| District.DISTRICT := Some "D3"; District.Rate := Some 3%Q;
       District.Area := None; District.x := Some 2%Q; District.y := Some 2%Q |} ].

(** The first triangle again, with a hole cut out of it. *)
Definition triangle_a_with_hole : polygon Z :=
  {| exterior := exterior triangle_a;
     interiors := [ {| coords := Coords2D [(1, 1); (1, 1); (1, 1)]%Z |} ] |}.

(** A table in which one region has no coordinate in its ring. *)
Definition gdf_with_empty_polygon : GeoDataFrame :=
  [named_region "A" 1 10;
   {| REGION_NAM := Some "B"; Rate := Some 2%Q; Area := Some 20%Q;
      row_geometry := Polygon {| exterior := {| coords := Coords2D [] |};
                                 interiors := [] |} |}].

(** * Properties *)

(** ** The flattener *)

Section FlattenerFacts.
Context {num : Type}.
Implicit Types (cs : CoordinateSequence num) (p poly : polygon num).
Implicit Types (geoms : list (polygon num)) (xs ys : path num).

(** What the starred [zip] makes of a coordinate sequence. *)
Lemma zip_star_tuples cs :
  zip_star (tuples cs) =
    match ring_length cs with
    | O => []
    | S _ =>
        match cs with
        | Coords2D _ => [ring_xs cs; ring_ys cs]
        | Coords3D _ => [ring_xs cs; ring_ys cs; ring_zs cs]
        end
    end.
Proof.
  destruct cs as [pts|pts]; simpl.
  - induction pts as [|a pts IH]; [done|].
    destruct pts as [|b pts]; [done|].
    change (zip_star (tuples (Coords2D (a :: b :: pts))))
      with (zip_with cons [fst a; snd a] (zip_star (tuples (Coords2D (b :: pts))))).
    simpl in IH. simpl. by rewrite IH.
  - induction pts as [|a pts IH]; [done|].
    destruct pts as [|b pts]; [done|].
    change (zip_star (tuples (Coords3D (a :: b :: pts))))
      with (zip_with cons [fst (fst a); snd (fst a); snd a]
              (zip_star (tuples (Coords3D (b :: pts))))).
    simpl in IH. simpl. by rewrite IH.
Qed.

Lemma ring_xs_length cs : length (ring_xs cs) = ring_length cs.
Proof. destruct cs; simpl; by rewrite length_map. Qed.

Lemma ring_ys_length cs : length (ring_ys cs) = ring_length cs.
Proof. destruct cs; simpl; by rewrite length_map. Qed.

(** The holes of a polygon play no part. *)
Remark extract_coordinates_ignores_interiors (ring : LinearRing num) holes holes' :
  extract_coordinates (Polygon {| exterior := ring; interiors := holes |})
  = extract_coordinates (Polygon {| exterior := ring; interiors := holes' |}).
Proof. reflexivity. Qed.

(** The [Polygon] branch, in closed form. *)
Lemma extract_coordinates_Polygon p :
  extract_coordinates (Polygon p) =
    match ring_length (coords (exterior p)) with
    | O => Raise IndexError
    | S _ => Ok (Some <$> ring_xs (coords (exterior p)),
                 Some <$> ring_ys (coords (exterior p)))
    end.
Proof.
  unfold extract_coordinates. rewrite zip_star_tuples.
  destruct (ring_length (coords (exterior p))); [done|].
  by destruct (coords (exterior p)).
Qed.

(** When the unpacking of line 32 succeeds, and what it binds. *)
Lemma unpack_two cs x y :
  zip_star (tuples cs) = [x; y] →
  is_2d cs ∧ ring_length cs ≠ 0%nat ∧ x = ring_xs cs ∧ y = ring_ys cs.
Proof.
  rewrite zip_star_tuples.
  destruct (ring_length cs) eqn:Hlen; [done|].
  destruct cs; [|done]. by intros [= <- <-].
Qed.

Lemma unpack_unpackable poly :
  unpackable poly →
  zip_star (tuples (coords (exterior poly))) =
    [ring_xs (coords (exterior poly)); ring_ys (coords (exterior poly))].
Proof.
  intros [H2d Hlen]. rewrite zip_star_tuples.
  destruct (ring_length (coords (exterior poly))); [done|].
  by destruct (coords (exterior poly)).
Qed.

(** Gap sentinels of the pieces a path is made of. *)
Lemma gap_count_app xs ys : gap_count (xs ++ ys) = (gap_count xs + gap_count ys)%nat.
Proof. unfold gap_count. by rewrite filter_app, length_app. Qed.

Lemma gap_count_numbers (l : list num) : gap_count (Some <$> l) = 0%nat.
Proof.
  unfold gap_count. induction l as [|a l IH]; [done|].
  rewrite fmap_cons, filter_cons_False; done.
Qed.

Lemma gap_count_gapped proj geoms : gap_count (gapped proj geoms) = length geoms.
Proof.
  unfold gapped. induction geoms as [|poly geoms IH]; [done|].
  rewrite fmap_cons. simpl concat. unfold ring_then_gap at 1.
  rewrite !gap_count_app, gap_count_numbers, IH. done.
Qed.

Lemma gapped_length proj geoms :
  length (gapped proj geoms) =
    sum_list ((λ poly, S (length (proj (coords (exterior poly))))) <$> geoms).
Proof.
  unfold gapped. induction geoms as [|poly geoms IH]; [done|].
  rewrite !fmap_cons. simpl concat. unfold ring_then_gap at 1.
  rewrite !length_app, length_fmap, IH. simpl. lia.
Qed.

(** The loop appends the gapped rings to its accumulators. *)
Lemma extend_loop_unpackable geoms xs ys :
  Forall unpackable geoms →
  extend_loop geoms xs ys =
    Ok (xs ++ gapped ring_xs geoms, ys ++ gapped ring_ys geoms).
Proof.
  intros Hall. revert xs ys.
  induction Hall as [|poly geoms Hpoly _ IH]; intros xs ys; simpl.
  - unfold gapped. simpl. by rewrite !app_nil_r.
  - rewrite (unpack_unpackable _ Hpoly), IH.
    unfold gapped, ring_then_gap. rewrite !fmap_cons. simpl concat.
    by rewrite <- !(assoc_L (++)).
Qed.

(** The loop keeps the two accumulators aligned. *)
Lemma same_gaps_numbers (x y : list num) :
  length x = length y → same_gaps (Some <$> x) (Some <$> y).
Proof.
  intros Hlen. apply Forall2_fmap, Forall2_true; [|done].
  intros a b. split; discriminate.
Qed.

Lemma extend_loop_same_gaps geoms xc yc xs ys :
  extend_loop geoms xc yc = Ok (xs, ys) →
  same_gaps xc yc → same_gaps xs ys.
Proof.
  revert xc yc. induction geoms as [|poly geoms IH]; intros xc yc; simpl.
  - by intros [= <- <-].
  - destruct (zip_star (tuples (coords (exterior poly))))
      as [|x [|y [|z rest]]] eqn:Hzip; try discriminate.
    intros Hloop Hacc. apply (IH _ _ Hloop).
    apply unpack_two in Hzip as (_ & _ & -> & ->).
    apply Forall2_app; [done|]. apply Forall2_app; [|by constructor].
    apply same_gaps_numbers. by rewrite ring_xs_length, ring_ys_length.
Qed.

Lemma same_gaps_lookup xs ys i :
  same_gaps xs ys → xs !! i = Some None ↔ ys !! i = Some None.
Proof.
  intros Hgaps. revert i.
  induction Hgaps as [|a b xs ys Hab _ IH]; intros [|i]; simpl; [done..| |done].
  split; intros [= H]; f_equal; by apply Hab.
Qed.

End FlattenerFacts.

(** The example of the specification. *)
Example flatten_two_rings :
  extract_coordinates (MultiPolygon [triangle_a; triangle_b])
  = Ok ([Some 0; Some 1; Some 1; None; Some 2; Some 3; Some 3; None]%Z,
        [Some 0; Some 0; Some 1; None; Some 2; Some 2; Some 3; None]%Z).
Proof. reflexivity. Qed.

(** A polygon with z-values flattens to its x and y. *)
Example flatten_polygon_z :
  extract_coordinates (Polygon polygon_z)
  = Ok ([Some 0; Some 1; Some 1]%Z, [Some 0; Some 0; Some 1]%Z).
Proof. reflexivity. Qed.

(** C1, as stated, fails: a multi-polygon with a sub-polygon whose exterior
    ring has no coordinate makes the unpacking of line 32 raise [ValueError],
    so nothing is returned; the same happens on a ring of 3-tuples. *)
Lemma multipolygon_flattening_raises :
  extract_coordinates (MultiPolygon [triangle_a; empty_polygon]) = Raise ValueError
  ∧ extract_coordinates (MultiPolygon [polygon_z]) = Raise ValueError
  ∧ ¬ ∃ xs ys,
        extract_coordinates (MultiPolygon [triangle_a; empty_polygon]) = Ok (xs, ys)
        ∧ gap_count xs = 2%nat ∧ gap_count ys = 2%nat ∧ length xs = length ys.
Proof.
  split_and!; [reflexivity..|]. intros (xs & ys & Hret & _). discriminate Hret.
Qed.

(** C1, amended: for every multi-polygon whose sub-polygons each have a
    two-dimensional exterior ring with at least one coordinate,
    [extract_coordinates] returns the sub-polygons' x-coordinates (resp.
    y-coordinates) in the given order, each ring followed by exactly one gap
    sentinel; with k sub-polygons each sequence holds exactly k sentinels, and
    the two sequences have the same length. *)
Theorem multipolygon_flattening {num : Type} (geoms : list (polygon num)) :
  Forall unpackable geoms →
  extract_coordinates (MultiPolygon geoms)
    = Ok (gapped ring_xs geoms, gapped ring_ys geoms)
  ∧ gap_count (gapped ring_xs geoms) = length geoms
  ∧ gap_count (gapped ring_ys geoms) = length geoms
  ∧ length (gapped ring_xs geoms) = length (gapped ring_ys geoms).
Proof.
  intros Hall.
  assert (extract_coordinates (MultiPolygon geoms)
            = Ok (gapped ring_xs geoms, gapped ring_ys geoms)) as Hret.
  { simpl. by rewrite extend_loop_unpackable. }
  split_and!; [done | apply gap_count_gapped.. |].
  eapply Forall2_length, extend_loop_same_gaps; [exact Hret|constructor].
Qed.

Lemma multipolygon_flattening_witness :
  Forall unpackable [triangle_a; triangle_b]
  ∧ extract_coordinates (MultiPolygon [triangle_a; triangle_b])
      = Ok (gapped ring_xs [triangle_a; triangle_b],
            gapped ring_ys [triangle_a; triangle_b])
  ∧ gap_count (gapped ring_xs [triangle_a; triangle_b]) = 2%nat
  ∧ gap_count (gapped ring_ys [triangle_a; triangle_b]) = 2%nat
  ∧ length (gapped ring_xs [triangle_a; triangle_b])
      = length (gapped ring_ys [triangle_a; triangle_b]).
Proof.
  assert (Forall unpackable [triangle_a; triangle_b]) as Hall.
  { repeat constructor; discriminate. }
  split; [exact Hall|]. exact (multipolygon_flattening _ Hall).
Defined.

(** C2, as stated, fails: on a simple polygon whose exterior ring has no
    coordinate the indexing of line 28 raises [IndexError]. *)
Lemma simple_polygon_flattening_raises :
  extract_coordinates (Polygon empty_polygon) = Raise IndexError
  ∧ ¬ ∃ xs ys, extract_coordinates (Polygon empty_polygon) = Ok (xs, ys)
               ∧ length xs = 0%nat ∧ length ys = 0%nat.
Proof.
  split; [reflexivity|]. intros (xs & ys & Hret & _). discriminate Hret.
Qed.

(** C2, amended: for every simple polygon whose exterior ring has at least
    one coordinate, [extract_coordinates] returns the ring's x-coordinates and
    y-coordinates, in order; both sequences are as long as the ring and hold
    no gap sentinel. *)
Theorem simple_polygon_flattening {num : Type} (p : polygon num) :
  ring_length (coords (exterior p)) ≠ 0%nat →
  ∃ xs ys,
    extract_coordinates (Polygon p) = Ok (xs, ys)
    ∧ xs = Some <$> ring_xs (coords (exterior p))
    ∧ ys = Some <$> ring_ys (coords (exterior p))
    ∧ length xs = ring_length (coords (exterior p))
    ∧ length ys = ring_length (coords (exterior p))
    ∧ gap_count xs = 0%nat ∧ gap_count ys = 0%nat.
Proof.
  intros Hlen. eexists _, _. rewrite extract_coordinates_Polygon.
  destruct (ring_length (coords (exterior p))) eqn:Hn; [done|].
  split_and!; try reflexivity.
  - by rewrite length_fmap, ring_xs_length.
  - by rewrite length_fmap, ring_ys_length.
  - apply gap_count_numbers.
  - apply gap_count_numbers.
Qed.

Lemma simple_polygon_flattening_witness :
  ring_length (coords (exterior triangle_a)) ≠ 0%nat
  ∧ ∃ xs ys,
      extract_coordinates (Polygon triangle_a) = Ok (xs, ys)
      ∧ xs = Some <$> ring_xs (coords (exterior triangle_a))
      ∧ ys = Some <$> ring_ys (coords (exterior triangle_a))
      ∧ length xs = ring_length (coords (exterior triangle_a))
      ∧ length ys = ring_length (coords (exterior triangle_a))
      ∧ gap_count xs = 0%nat ∧ gap_count ys = 0%nat.
Proof.
  assert (ring_length (coords (exterior triangle_a)) ≠ 0%nat) as Hlen.
  { vm_compute. discriminate. }
  split; [exact Hlen|]. exact (simple_polygon_flattening triangle_a Hlen).
Defined.

(** C3: [extract_coordinates] returns two empty sequences, and raises
    nothing, on a multi-polygon without sub-polygons and on every geometry
    that is neither a [Polygon] nor a [MultiPolygon]. *)
Theorem empty_flattening {num : Type} :
  extract_coordinates (MultiPolygon (num := num) []) = Ok ([], [])
  ∧ ∀ g : geometry num,
      isinstance_Polygon g = false → isinstance_MultiPolygon g = false →
      extract_coordinates g = Ok ([], []).
Proof.
  split; [reflexivity|]. by intros [p|geoms|k] Hp Hm.
Qed.

Lemma empty_flattening_witness :
  isinstance_Polygon (OtherGeometry (num := Z) NoGeometry) = false
  ∧ isinstance_MultiPolygon (OtherGeometry (num := Z) NoGeometry) = false
  ∧ extract_coordinates (OtherGeometry (num := Z) NoGeometry) = Ok ([], []).
Proof.
  split_and!; [reflexivity..|].
  apply (proj2 (empty_flattening (num := Z))); reflexivity.
Defined.

(** C4: whenever [extract_coordinates] returns, the two sequences have the
    same length and the gap sentinel [None] stands at exactly the same
    indices in both. *)
Theorem flattening_aligned {num : Type} (g : geometry num) (xs ys : path num) :
  extract_coordinates g = Ok (xs, ys) →
  length xs = length ys
  ∧ ∀ i : nat, xs !! i = Some None ↔ ys !! i = Some None.
Proof.
  intros Hret. assert (same_gaps xs ys) as Hgaps.
  { destruct g as [p|geoms|k].
    - rewrite extract_coordinates_Polygon in Hret.
      destruct (ring_length (coords (exterior p))) eqn:Hn; [done|].
      injection Hret as <- <-. apply same_gaps_numbers.
      by rewrite ring_xs_length, ring_ys_length.
    - eapply extend_loop_same_gaps; [exact Hret|constructor].
    - injection Hret as <- <-. constructor. }
  split; [by eapply Forall2_length|].
  intros i. by apply same_gaps_lookup.
Qed.

Lemma flattening_aligned_witness :
  extract_coordinates (MultiPolygon [triangle_a; triangle_b])
    = Ok ([Some 0; Some 1; Some 1; None; Some 2; Some 3; Some 3; None]%Z,
          [Some 0; Some 0; Some 1; None; Some 2; Some 2; Some 3; None]%Z)
  ∧ length [Some 0; Some 1; Some 1; None; Some 2; Some 3; Some 3; None]%Z
      = length [Some 0; Some 0; Some 1; None; Some 2; Some 2; Some 3; None]%Z
  ∧ ∀ i : nat,
      [Some 0; Some 1; Some 1; None; Some 2; Some 3; Some 3; None]%Z !! i = Some None
      ↔ [Some 0; Some 0; Some 1; None; Some 2; Some 2; Some 3; None]%Z !! i = Some None.
Proof.
  split; [reflexivity|].
  apply (flattening_aligned (MultiPolygon [triangle_a; triangle_b])).
  reflexivity.
Defined.

(** C10: the [Polygon] branch is partial.  On a simple polygon whose
    exterior ring has no coordinate, [extract_coordinates] raises
    [IndexError] instead of returning two empty sequences; it returns a value
    on a simple polygon exactly when the exterior ring has a coordinate. *)
Theorem polygon_branch_partial {num : Type} (p : polygon num) :
  (ring_length (coords (exterior p)) = 0%nat →
     extract_coordinates (Polygon p) = Raise IndexError)
  ∧ (returns (extract_coordinates (Polygon p)) ↔
     ring_length (coords (exterior p)) ≠ 0%nat).
Proof.
  rewrite extract_coordinates_Polygon.
  destruct (ring_length (coords (exterior p))); simpl; split; done.
Qed.

Lemma polygon_branch_partial_witness :
  ring_length (coords (exterior empty_polygon)) = 0%nat
  ∧ extract_coordinates (Polygon empty_polygon) = Raise IndexError.
Proof.
  split; [reflexivity|].
  apply (proj1 (polygon_branch_partial empty_polygon)). reflexivity.
Defined.

(** ** The selection aggregator *)

Section AggregatorFacts.
Implicit Types (gdf : GeoDataFrame) (sel : list string) (r : region).

(** The boolean mask of line 117 selects the rows whose name is chosen. *)
Lemma selected_gdf_filter gdf sel :
  selected_gdf gdf sel = filter (name_selected sel) gdf.
Proof.
  unfold selected_gdf, isin. induction gdf as [|r gdf IH]; [done|].
  rewrite !fmap_cons. simpl. rewrite IH.
  destruct (REGION_NAM r) as [n|] eqn:Hn.
  - case_bool_decide as Hin.
    + rewrite filter_cons_True; [done|]. exists n. by rewrite Hn.
    + rewrite filter_cons_False; [done|].
      intros (m & Hm & Hsel). rewrite Hn in Hm. by simplify_eq.
  - rewrite filter_cons_False; [done|].
    intros (m & Hm & _). by rewrite Hn in Hm.
Qed.

Lemma selected_gdf_nil gdf : selected_gdf gdf [] = [].
Proof.
  rewrite selected_gdf_filter. induction gdf as [|r gdf IH]; [done|].
  rewrite filter_cons_False; [done|].
  intros (n & _ & Hin). by apply not_elem_of_nil in Hin.
Qed.

(** The options of the multi-select are the names present in the table. *)
Lemma elem_of_unique (x : string) (s : list string) : x ∈ unique s ↔ x ∈ s.
Proof.
  induction s as [|y s IH]; [done|]. simpl.
  rewrite !elem_of_cons, list_elem_of_filter, IH.
  destruct (decide (x = y)) as [->|Hne]; tauto.
Qed.

Lemma elem_of_region_names gdf (n : string) :
  n ∈ region_names gdf ↔ ∃ r, r ∈ gdf ∧ REGION_NAM r = Some n.
Proof.
  unfold region_names, sorted, dropna.
  rewrite merge_sort_Permutation, elem_of_unique, list_elem_of_omap.
  split.
  - intros (o & (r & -> & Hr)%list_elem_of_fmap & Ho). by exists r.
  - intros (r & Hr & Hn). exists (Some n). split; [|done].
    rewrite <- Hn. by apply list_elem_of_fmap_2.
Qed.

Lemma filter_all {A : Type} (P : A → Prop) `{!∀ x, Decision (P x)} (l : list A) :
  Forall P l → filter P l = l.
Proof.
  induction 1 as [|x l Hx _ IH]; [done|]. by rewrite filter_cons_True, IH.
Qed.

Lemma region_names_sorted gdf : Sorted String.le (region_names gdf).
Proof. apply Sorted_merge_sort; apply _. Qed.

Lemma selected_gdf_all gdf :
  (∀ r, r ∈ gdf → REGION_NAM r ≠ None) →
  selected_gdf gdf (region_names gdf) = gdf.
Proof.
  intros Hnamed. rewrite selected_gdf_filter. apply filter_all.
  apply Forall_forall. intros r Hr.
  destruct (REGION_NAM r) as [n|] eqn:Hn; [|by destruct (Hnamed r Hr)].
  exists n. split; [done|]. apply elem_of_region_names. by exists r.
Qed.

(** A name no row carries selects nothing. *)
Lemma name_selected_absent (n : string) sel1 sel2 r :
  REGION_NAM r ≠ Some n →
  name_selected (sel1 ++ n :: sel2) r ↔ name_selected (sel1 ++ sel2) r.
Proof.
  intros Habsent. unfold name_selected. split.
  - intros (m & Hm & Hin). exists m. split; [done|].
    rewrite elem_of_app, elem_of_cons in Hin. rewrite elem_of_app.
    destruct Hin as [?|[->|?]]; [by left|done|by right].
  - intros (m & Hm & Hin). exists m. split; [done|].
    rewrite elem_of_app in Hin. rewrite elem_of_app, elem_of_cons. tauto.
Qed.

Lemma selected_gdf_absent gdf (n : string) sel1 sel2 :
  (∀ r, r ∈ gdf → REGION_NAM r ≠ Some n) →
  selected_gdf gdf (sel1 ++ n :: sel2) = selected_gdf gdf (sel1 ++ sel2).
Proof.
  intros Habsent. rewrite !selected_gdf_filter.
  induction gdf as [|r gdf IH]; [done|].
  assert (name_selected (sel1 ++ n :: sel2) r ↔ name_selected (sel1 ++ sel2) r)
    as Hiff by (apply name_selected_absent, Habsent; left).
  rewrite !filter_cons, IH by (intros r' Hr'; apply Habsent; by right).
  repeat case_decide; tauto || done.
Qed.

(** Over non-negative areas the running total of the selected rows never
    overtakes the running total of all rows. *)
Lemma selected_total_le gdf sel (acc1 acc2 : Q) :
  (∀ r a, r ∈ gdf → Area r = Some a → (0 <= a)%Q) →
  (acc1 <= acc2)%Q →
  (fold_left add_cell (Area <$> filter (name_selected sel) gdf) acc1
   <= fold_left add_cell (Area <$> gdf) acc2)%Q.
Proof.
  revert acc1 acc2. induction gdf as [|r gdf IH]; intros acc1 acc2 Hpos Hacc; [done|].
  assert (∀ r' a, r' ∈ gdf → Area r' = Some a → (0 <= a)%Q) as Hpos'.
  { intros r' a Hr'. apply Hpos. by right. }
  rewrite fmap_cons. simpl fold_left.
  destruct (decide (name_selected sel r)) as [Hsel|Hsel].
  - rewrite filter_cons_True by done. rewrite fmap_cons. simpl fold_left.
    apply IH; [done|]. destruct (Area r) as [a|]; simpl; [lra|done].
  - rewrite filter_cons_False by done.
    apply IH; [done|]. destruct (Area r) as [a|] eqn:Ha; simpl; [|done].
    assert (0 <= a)%Q by (apply (Hpos r a); [by left|done]). lra.
Qed.

End AggregatorFacts.

(** The example of the specification: areas 10, 20 and 5, regions A and C
    selected. *)
Example sample_selection :
  region_names sample_gdf = ["A"; "B"; "C"]
  ∧ selected_area sample_gdf ["A"; "C"] = 15%Q
  ∧ remainder sample_gdf ["A"; "C"] = 20%Q
  ∧ attribute_view (selected_gdf sample_gdf ["A"; "C"])
    = [(Some "A", Some 1%Q, Some 10%Q); (Some "C", Some 3%Q, Some 5%Q)].
Proof. by vm_compute. Qed.

(** The options are sorted and distinct; the filtered rows keep the order of
    the table, whatever the order of the selection. *)
Example shuffled_selection :
  region_names shuffled_gdf = ["A"; "B"; "C"]
  ∧ attribute_view (selected_gdf shuffled_gdf ["B"; "C"])
    = [(Some "C", Some 3%Q, Some 5%Q); (Some "C", Some 4%Q, Some 7%Q);
       (Some "B", Some 2%Q, Some 20%Q)]
  ∧ selected_area shuffled_gdf ["B"; "C"] = 32%Q
  ∧ total_area shuffled_gdf = 62%Q.
Proof. by vm_compute. Qed.

(** C5, as stated, fails: the inequality is not hedged by rational
    arithmetic, and on an integer [Area] column the total of line 122 wraps
    around.  With areas 1, 2^62 and 2^62, none negative, and region A
    selected, the selected area is 1, the total area is 1 - 2^63 and the
    remainder is -2^63: the selected area exceeds the total. *)
Lemma area_inequality_wraps :
  Forall (λ a, 0 ≤ a)%Z large_areas
  ∧ selected_area_int64 large_names large_areas ["A"] = 1%Z
  ∧ total_area_int64 large_areas = (1 - 2 ^ 63)%Z
  ∧ remainder_int64 large_names large_areas ["A"] = (- 2 ^ 63)%Z
  ∧ ¬ (selected_area_int64 large_names large_areas ["A"]
       ≤ total_area_int64 large_areas)%Z.
Proof.
  split_and!; [|reflexivity..|].
  - repeat constructor; discriminate.
  - vm_compute. intros Hle. by apply Hle.
Qed.

(** C5, amended: for every table and every selection, with the sums taken
    over the rationals, the selected area plus the remainder is the total
    area, and the selected area is at most the total area when no area is
    negative; these are the two values the pie chart is given. *)
Theorem area_proportion (gdf : GeoDataFrame) (sel : list string) :
  (selected_area gdf sel + remainder gdf sel == total_area gdf)%Q
  ∧ ((∀ r a, r ∈ gdf → Area r = Some a → (0 <= a)%Q) →
     (selected_area gdf sel <= total_area gdf)%Q)
  ∧ (∀ d, selection_block gdf sel = Some d →
     pie_values d = (selected_area gdf sel, remainder gdf sel)).
Proof.
  split_and!.
  - unfold remainder. ring.
  - intros Hpos. unfold selected_area, total_area, Series_sum.
    rewrite selected_gdf_filter. apply selected_total_le; [done|]. apply Qle_refl.
  - intros d. destruct sel; [done|]. by intros [= <-].
Qed.

Lemma area_proportion_witness :
  (∀ r a, r ∈ sample_gdf → Area r = Some a → (0 <= a)%Q)
  ∧ (selected_area sample_gdf ["A"; "C"] <= total_area sample_gdf)%Q.
Proof.
  assert (∀ r a, r ∈ sample_gdf → Area r = Some a → (0 <= a)%Q) as Hpos.
  { intros r a Hr Ha. unfold sample_gdf in Hr.
    repeat (apply elem_of_cons in Hr as [->|Hr]);
      [injection Ha as <-; discriminate ..|].
    by apply not_elem_of_nil in Hr. }
  split; [exact Hpos|].
  exact (proj1 (proj2 (area_proportion sample_gdf ["A"; "C"])) Hpos).
Defined.

(** C6, as stated, fails: a region whose name is missing is not offered by
    the selection control, so selecting every offered name leaves it out of
    the sum and of the table. *)
Lemma select_all_misses_unnamed :
  region_names gdf_with_unnamed = ["A"]
  ∧ selected_area gdf_with_unnamed (region_names gdf_with_unnamed) = 10%Q
  ∧ total_area gdf_with_unnamed = 30%Q
  ∧ ¬ (selected_area gdf_with_unnamed (region_names gdf_with_unnamed)
       == total_area gdf_with_unnamed)%Q
  ∧ attribute_view (selected_gdf gdf_with_unnamed (region_names gdf_with_unnamed))
    ≠ attribute_view gdf_with_unnamed.
Proof. split_and!; by vm_compute. Qed.

(** C6, amended: for every table in which every region has a name,
    selecting all the names the selection control offers keeps every row, so
    the selected area is the total area and the filtered attribute view is
    the full attribute view, in the original order; when the table has at
    least one region, the page shows exactly that. *)
Theorem select_all (gdf : GeoDataFrame) :
  (∀ r, r ∈ gdf → REGION_NAM r ≠ None) →
  selected_area gdf (region_names gdf) = total_area gdf
  ∧ (selected_area gdf (region_names gdf) == total_area gdf)%Q
  ∧ attribute_view (selected_gdf gdf (region_names gdf)) = attribute_view gdf
  ∧ (gdf ≠ [] →
     selection_block gdf (region_names gdf)
     = Some {| dataframe := attribute_view gdf;
               pie_values := (total_area gdf, (total_area gdf - total_area gdf)%Q) |}).
Proof.
  intros Hnamed. pose proof (selected_gdf_all gdf Hnamed) as Hall.
  assert (selected_area gdf (region_names gdf) = total_area gdf) as Harea.
  { unfold selected_area. by rewrite Hall. }
  split_and!; [done | by rewrite Harea | by rewrite Hall |].
  intros Hne. unfold selection_block.
  destruct (region_names gdf) as [|n names] eqn:Hnames.
  - destruct gdf as [|r gdf]; [done|].
    destruct (REGION_NAM r) as [n|] eqn:Hn.
    + assert (n ∈ region_names (r :: gdf)) as Hin.
      { apply elem_of_region_names. exists r. split; [by left|done]. }
      rewrite Hnames in Hin. by apply not_elem_of_nil in Hin.
    + destruct (Hnamed r); [by left|done].
  - by rewrite Harea, Hall.
Qed.

Lemma select_all_witness :
  (∀ r, r ∈ sample_gdf → REGION_NAM r ≠ None)
  ∧ selected_area sample_gdf (region_names sample_gdf) = total_area sample_gdf
  ∧ attribute_view (selected_gdf sample_gdf (region_names sample_gdf))
    = attribute_view sample_gdf.
Proof.
  assert (∀ r, r ∈ sample_gdf → REGION_NAM r ≠ None) as Hnamed.
  { intros r Hr. unfold sample_gdf in Hr.
    repeat (apply elem_of_cons in Hr as [->|Hr]); [discriminate ..|].
    by apply not_elem_of_nil in Hr. }
  split; [exact Hnamed|].
  destruct (select_all sample_gdf Hnamed) as (Harea & _ & Hview & _).
  exact (conj Harea Hview).
Defined.

(** C7, as stated, fails: the selection block is guarded by
    [if selected_regions:], so for the empty selection the page gets neither
    a selected area nor an attribute view. *)
Lemma empty_selection_shows_nothing :
  selection_block sample_gdf [] = None
  ∧ ¬ ∃ d, selection_block sample_gdf [] = Some d
           ∧ (fst (pie_values d) == 0)%Q ∧ dataframe d = [].
Proof.
  split; [reflexivity|]. intros (d & Hd & _). discriminate Hd.
Qed.

(** C7, amended: for every table, the empty selection makes the script skip
    the selection block, so no attribute view and no selected area are
    produced; the filter of line 117 and the sum of line 121, taken at the
    empty selection, are the empty view and 0. *)
Theorem empty_selection (gdf : GeoDataFrame) :
  selection_block gdf [] = None
  ∧ attribute_view (selected_gdf gdf []) = []
  ∧ selected_area gdf [] = 0%Q.
Proof.
  split_and!; [done| |]; unfold selected_area; by rewrite selected_gdf_nil.
Qed.

(** C8: for every table and every selection, the filtered rows are exactly
    the rows whose name is in the selection, in the order of the table; the
    attribute view shown holds, row by row and in that order, the name, the
    rate and the area of exactly those rows; and a selected name that no
    region carries changes neither the filtered rows, nor the view, nor the
    selected area.  All the functions involved are total: nothing is
    raised. *)
Theorem selection_filter (gdf : GeoDataFrame) (sel : list string) :
  selected_gdf gdf sel = filter (name_selected sel) gdf
  ∧ (∀ r, r ∈ selected_gdf gdf sel ↔ r ∈ gdf ∧ name_selected sel r)
  ∧ sublist (selected_gdf gdf sel) gdf
  ∧ attribute_view (selected_gdf gdf sel)
    = (λ r, (REGION_NAM r, Rate r, Area r)) <$> filter (name_selected sel) gdf
  ∧ (∀ (name : option string) (rate area : option Q),
     (name, rate, area) ∈ attribute_view (selected_gdf gdf sel)
     ↔ ∃ r, r ∈ gdf ∧ name_selected sel r
            ∧ REGION_NAM r = name ∧ Rate r = rate ∧ Area r = area)
  ∧ sublist (attribute_view (selected_gdf gdf sel))
            ((λ r, (REGION_NAM r, Rate r, Area r)) <$> gdf)
  ∧ sublist (attribute_view (selected_gdf gdf sel)) (attribute_view gdf)
  ∧ (∀ d, selection_block gdf sel = Some d →
     dataframe d
     = (λ r, (REGION_NAM r, Rate r, Area r)) <$> filter (name_selected sel) gdf)
  ∧ (∀ (n : string) sel1 sel2,
     sel = sel1 ++ n :: sel2 →
     (∀ r, r ∈ gdf → REGION_NAM r ≠ Some n) →
     selected_gdf gdf sel = selected_gdf gdf (sel1 ++ sel2)
     ∧ attribute_view (selected_gdf gdf sel)
       = (λ r, (REGION_NAM r, Rate r, Area r))
           <$> filter (name_selected (sel1 ++ sel2)) gdf
     ∧ attribute_view (selected_gdf gdf sel)
       = attribute_view (selected_gdf gdf (sel1 ++ sel2))
     ∧ selected_area gdf sel = selected_area gdf (sel1 ++ sel2)).
Proof.
  pose proof (selected_gdf_filter gdf sel) as Hfilter.
  assert (attribute_view (selected_gdf gdf sel)
          = (λ r, (REGION_NAM r, Rate r, Area r)) <$> filter (name_selected sel) gdf)
    as Hview by (by rewrite Hfilter).
  split_and!.
  - done.
  - intros r. rewrite Hfilter, list_elem_of_filter. tauto.
  - rewrite Hfilter. apply sublist_filter.
  - done.
  - intros name rate area. rewrite Hview, list_elem_of_fmap. split.
    + intros (r & [= -> -> ->] & [Hsel Hr]%list_elem_of_filter). by exists r.
    + intros (r & Hr & Hsel & <- & <- & <-). exists r. split; [done|].
      by apply list_elem_of_filter.
  - rewrite Hview. apply fmap_sublist, sublist_filter.
  - unfold attribute_view. apply fmap_sublist. rewrite Hfilter. apply sublist_filter.
  - intros d. destruct sel; [done|]. by intros [= <-].
  - intros n sel1 sel2 -> Habsent.
    pose proof (selected_gdf_absent gdf n sel1 sel2 Habsent) as Hsame.
    unfold selected_area. rewrite Hsame. split_and!; [done| |done..].
    by rewrite selected_gdf_filter.
Qed.

Lemma selection_filter_witness :
  (∀ r, r ∈ sample_gdf → REGION_NAM r ≠ Some "Z")
  ∧ attribute_view (selected_gdf sample_gdf ["A"; "Z"; "C"])
    = [(Some "A", Some 1%Q, Some 10%Q); (Some "C", Some 3%Q, Some 5%Q)]
  ∧ selected_area sample_gdf ["A"; "Z"; "C"] = 15%Q.
Proof.
  assert (∀ r, r ∈ sample_gdf → REGION_NAM r ≠ Some "Z") as Habsent.
  { intros r Hr. unfold sample_gdf in Hr.
    repeat (apply elem_of_cons in Hr as [->|Hr]); [discriminate ..|].
    by apply not_elem_of_nil in Hr. }
  split; [exact Habsent|].
  destruct (selection_filter sample_gdf ["A"; "Z"; "C"])
    as (_ & _ & _ & _ & _ & _ & _ & _ & Hname).
  destruct (Hname "Z" ["A"] ["C"] eq_refl Habsent) as (_ & Hview & _ & Harea).
  split.
  - exact (eq_trans Hview eq_refl).
  - exact (eq_trans Harea eq_refl).
Defined.

(** ** The session flag *)

Section SessionFacts.
Implicit Types (ss : session_state) (c b : bool) (clicks : list bool).

(** One run, in closed form: the flag becomes "set before, or pressed now",
    and that is what decides whether the new page is rendered. *)
Lemma new_page_section_run c ss :
  new_page_section c ss
  = Ok (<[flag := default false (ss !! flag) || c]> ss,
        default false (ss !! flag) || c).
Proof.
  unfold new_page_section.
  destruct (ss !! flag) as [b|] eqn:Hflag; destruct c; simpl.
  - rewrite lookup_insert_eq. by rewrite orb_true_r.
  - rewrite Hflag, orb_false_r. by rewrite insert_id.
  - rewrite lookup_insert_eq. by rewrite insert_insert_eq.
  - by rewrite lookup_insert_eq.
Qed.

Lemma session_run clicks ss :
  ∃ ss', session clicks ss = Ok (ss', pressed_by (default false (ss !! flag)) clicks)
         ∧ (clicks ≠ [] →
            ss' !! flag
            = Some (default false (ss !! flag) || bool_decide (true ∈ clicks))).
Proof.
  revert ss. induction clicks as [|c clicks IH]; intros ss.
  - exists ss. by split.
  - simpl. rewrite new_page_section_run.
    destruct (IH (<[flag := default false (ss !! flag) || c]> ss))
      as (ss' & Hrun & Hflag).
    rewrite lookup_insert_eq in Hrun, Hflag. simpl in Hrun, Hflag.
    exists ss'. rewrite Hrun. split; [done|]. intros _.
    destruct clicks as [|c' clicks].
    + simpl in Hrun. injection Hrun as <-. rewrite lookup_insert_eq.
      f_equal. f_equal. destruct c; by vm_compute.
    + rewrite Hflag by done. f_equal. rewrite <- orb_assoc. f_equal.
      destruct c; [symmetry; apply bool_decide_eq_true_2; by left|].
      rewrite orb_false_l. apply bool_decide_ext.
      rewrite (elem_of_cons _ true false). split; [by right|]. by intros [?|?].
Qed.

End SessionFacts.

(** C9: at the start of a session (empty session state) the flag is set to
    false and the new page is not rendered; a run in which the button was
    pressed sets the flag to true; in every run the new page is rendered
    exactly when the flag is true after the run; a run without a press leaves
    the session state as it was; no run touches another key; and over a whole
    session the page is rendered in a run exactly when the button has been
    pressed in that run or an earlier one. *)
Theorem session_flag :
  new_page_section false ∅ = Ok ({[flag := false]}, false)
  ∧ (∀ ss : session_state, ∃ ss',
       new_page_section true ss = Ok (ss', true) ∧ ss' !! flag = Some true)
  ∧ (∀ (c : bool) (ss : session_state), ∃ ss' shown,
       new_page_section c ss = Ok (ss', shown) ∧ ss' !! flag = Some shown)
  ∧ (∀ (ss : session_state) (b : bool),
       ss !! flag = Some b → new_page_section false ss = Ok (ss, b))
  ∧ (∀ (c : bool) (ss ss' : session_state) (shown : bool) (k : string),
       new_page_section c ss = Ok (ss', shown) → k ≠ flag → ss' !! k = ss !! k)
  ∧ (∀ clicks : list bool, ∃ ss',
       session clicks ∅ = Ok (ss', pressed_by false clicks)
       ∧ (clicks ≠ [] → ss' !! flag = Some (bool_decide (true ∈ clicks)))).
Proof.
  split_and!.
  - by rewrite new_page_section_run, lookup_empty, insert_empty.
  - intros ss. eexists. rewrite new_page_section_run, orb_true_r.
    split; [done|]. apply lookup_insert_eq.
  - intros c ss. eexists _, _. rewrite new_page_section_run.
    split; [done|]. apply lookup_insert_eq.
  - intros ss b Hflag. rewrite new_page_section_run, Hflag. simpl.
    rewrite orb_false_r. by rewrite insert_id.
  - intros c ss ss' shown k. rewrite new_page_section_run.
    intros [= <- _] Hk. by rewrite lookup_insert_ne.
  - intros clicks. destruct (session_run clicks ∅) as (ss' & Hrun & Hflag).
    rewrite lookup_empty in Hrun, Hflag. by exists ss'.
Qed.

Lemma session_flag_witness :
  ({[flag := true]} : session_state) !! flag = Some true
  ∧ new_page_section false {[flag := true]} = Ok ({[flag := true]}, true).
Proof.
  assert (({[flag := true]} : session_state) !! flag = Some true) as Hset
    by apply lookup_singleton_eq.
  split; [exact Hset|].
  destruct session_flag as (_ & _ & _ & Hkeep & _).
  exact (Hkeep {[flag := true]} true Hset).
Defined.

(** A session of four runs: the button is pressed in the third. *)
Example session_of_four_runs :
  ∃ ss', session [false; false; true; false] ∅
         = Ok (ss', [false; false; true; true])
         ∧ ss' !! flag = Some true.
Proof.
  destruct (session_run [false; false; true; false] ∅) as (ss' & Hrun & Hflag).
  exists ss'. split; [exact Hrun|]. by rewrite Hflag.
Qed.

(** * Further properties *)

(** ** The flattener: its domain, its errors, how flattenings compose *)

Section FlattenerComposition.
Context {num : Type}.
Implicit Types (cs : CoordinateSequence num) (p poly : polygon num).
Implicit Types (geoms : list (polygon num)) (xs ys : path num).

Lemma unpackable_iff poly :
  unpackable poly ↔ ∃ x y, zip_star (tuples (coords (exterior poly))) = [x; y].
Proof.
  split.
  - intros Hpoly. eexists _, _. by apply unpack_unpackable.
  - intros (x & y & Hzip). apply unpack_two in Hzip as (H2d & Hlen & _). by split.
Qed.

Lemma not_unpackable_raises poly geoms xs ys :
  ¬ unpackable poly → extend_loop (poly :: geoms) xs ys = Raise ValueError.
Proof.
  intros Hpoly. simpl.
  destruct (zip_star (tuples (coords (exterior poly))))
    as [|x [|y [|z rest]]] eqn:Hzip; try done.
  destruct Hpoly. apply unpackable_iff. by exists x, y.
Qed.

(** The loop either returns on rings that all unpack, or raises [ValueError]
    on the first that does not. *)
Lemma extend_loop_outcome geoms xs ys :
  (Forall unpackable geoms
   ∧ extend_loop geoms xs ys
     = Ok (xs ++ gapped ring_xs geoms, ys ++ gapped ring_ys geoms))
  ∨ (Exists (λ poly, ¬ unpackable poly) geoms
     ∧ extend_loop geoms xs ys = Raise ValueError).
Proof.
  revert xs ys. induction geoms as [|poly geoms IH]; intros xs ys.
  - left. split; [constructor|]. by apply extend_loop_unpackable.
  - destruct (zip_star (tuples (coords (exterior poly))))
      as [|x [|y [|z rest]]] eqn:Hzip.
    1, 2, 4: right; split;
      [ apply Exists_cons_hd; intros (x' & y' & Hxy)%unpackable_iff;
        rewrite Hzip in Hxy; discriminate
      | simpl; by rewrite Hzip ].
    assert (unpackable poly) as Hpoly by (apply unpackable_iff; eauto).
    destruct (IH (xs ++ (Some <$> x) ++ [None]) (ys ++ (Some <$> y) ++ [None]))
      as [[Hall Hret]|[Hbad Hraise]].
    + left. split; [by constructor|]. apply extend_loop_unpackable. by constructor.
    + right. split; [by apply Exists_cons_tl|]. simpl. by rewrite Hzip.
Qed.

Lemma gapped_app proj geoms1 geoms2 :
  gapped proj (geoms1 ++ geoms2) = gapped proj geoms1 ++ gapped proj geoms2.
Proof. unfold gapped. by rewrite fmap_app, concat_app. Qed.

(** A ring and its sentinel can be read back off the front of a path. *)
Lemma numbers_gap_inj (a b : list num) (r1 r2 : path num) :
  (Some <$> a) ++ None :: r1 = (Some <$> b) ++ None :: r2 → a = b ∧ r1 = r2.
Proof.
  revert b. induction a as [|u a IH]; intros [|v b]; simpl; try discriminate.
  - by intros [= ->].
  - intros [= -> Hrest]. destruct (IH b Hrest) as [-> ->]. done.
Qed.

Lemma gapped_inj proj geoms1 geoms2 :
  gapped proj geoms1 = gapped proj geoms2 →
  (λ poly, proj (coords (exterior poly))) <$> geoms1
  = (λ poly, proj (coords (exterior poly))) <$> geoms2.
Proof.
  revert geoms2. unfold gapped.
  induction geoms1 as [|p1 geoms1 IH]; intros [|p2 geoms2]; simpl; try done.
  - unfold ring_then_gap. intros Heq. symmetry in Heq.
    apply app_eq_nil in Heq as [Heq _]. by apply app_eq_nil in Heq as [_ ?].
  - unfold ring_then_gap. intros Heq.
    apply app_eq_nil in Heq as [Heq _]. by apply app_eq_nil in Heq as [_ ?].
  - unfold ring_then_gap at 1 3. rewrite <- !(assoc_L (++)). simpl.
    intros [-> Hrest]%numbers_gap_inj. f_equal. by apply IH.
Qed.

(** A two-dimensional coordinate sequence is its x's and its y's. *)
Lemma coords_2d_inj cs1 cs2 :
  is_2d cs1 → is_2d cs2 →
  ring_xs cs1 = ring_xs cs2 → ring_ys cs1 = ring_ys cs2 → cs1 = cs2.
Proof.
  destruct cs1 as [pts1|?], cs2 as [pts2|?]; try done. simpl. intros _ _.
  revert pts2. induction pts1 as [|[u1 v1] pts1 IH]; intros [|[u2 v2] pts2];
    simpl; try discriminate; [done|].
  intros [= -> Hxs] [= -> Hys]. by injection (IH pts2 Hxs Hys) as ->.
Qed.

Lemma rings_2d_inj geoms1 geoms2 :
  Forall unpackable geoms1 → Forall unpackable geoms2 →
  (λ poly, ring_xs (coords (exterior poly))) <$> geoms1
  = (λ poly, ring_xs (coords (exterior poly))) <$> geoms2 →
  (λ poly, ring_ys (coords (exterior poly))) <$> geoms1
  = (λ poly, ring_ys (coords (exterior poly))) <$> geoms2 →
  (λ poly, coords (exterior poly)) <$> geoms1
  = (λ poly, coords (exterior poly)) <$> geoms2.
Proof.
  intros Hall1. revert geoms2.
  induction Hall1 as [|p1 geoms1 [H1 _] _ IH]; intros [|p2 geoms2] Hall2;
    simpl; try discriminate; [done|].
  inversion Hall2 as [|? ? [H2 _] Hall2']; subst.
  intros [= Hx Hxs] [= Hy Hys]. f_equal; [by apply coords_2d_inj|by apply IH].
Qed.

End FlattenerComposition.

(** X1: [extract_coordinates] returns exactly on the geometries described by
    [flattens]: a polygon whose exterior ring has a coordinate, a
    multi-polygon all of whose rings are two-dimensional with a coordinate,
    and any other geometry.  When it raises, a polygon raises [IndexError] and
    a multi-polygon raises [ValueError]. *)
Theorem flattening_outcome {num : Type} (g : geometry num) :
  (returns (extract_coordinates g) ↔ flattens g)
  ∧ (∀ e, extract_coordinates g = Raise e → e = branch_error g).
Proof.
  destruct g as [p|geoms|k]; simpl flattens; simpl branch_error.
  - rewrite extract_coordinates_Polygon.
    destruct (ring_length (coords (exterior p))); simpl; split; try done.
    by intros e [= <-].
  - simpl extract_coordinates.
    destruct (extend_loop_outcome geoms [] []) as [[Hall ->]|[Hbad ->]]; simpl.
    + split; [done|]. intros e. discriminate.
    + split; [|by intros e [= <-]]. split; [done|]. intros Hall.
      apply Exists_exists in Hbad as (poly & Hin & Hpoly).
      destruct Hpoly. rewrite Forall_forall in Hall. by apply Hall.
  - simpl. split; [done|]. intros e. discriminate.
Qed.

(** X2: flattening the concatenation of two lists of sub-polygons gives the
    concatenation of the two flattenings; if either part raises, so does the
    whole, the first part's exception taking precedence. *)
Theorem multipolygon_concat {num : Type} (geoms1 geoms2 : list (polygon num)) :
  extract_coordinates (MultiPolygon (geoms1 ++ geoms2))
  = match extract_coordinates (MultiPolygon geoms1),
          extract_coordinates (MultiPolygon geoms2) with
    | Ok (x1, y1), Ok (x2, y2) => Ok (x1 ++ x2, y1 ++ y2)
    | Ok _, Raise e => Raise e
    | Raise e, _ => Raise e
    end.
Proof.
  simpl extract_coordinates.
  destruct (extend_loop_outcome (geoms1 ++ geoms2) [] []) as [[Hall Hret]|[Hbad Hret]];
    rewrite Hret; clear Hret.
  - apply Forall_app in Hall as [Hall1 Hall2].
    rewrite !extend_loop_unpackable by done. simpl. by rewrite !gapped_app.
  - destruct (extend_loop_outcome geoms1 [] []) as [[Hall1 Hret1]|[_ Hret1]];
      rewrite Hret1; clear Hret1; simpl; [|done].
    destruct (extend_loop_outcome geoms2 [] []) as [[Hall2 Hret2]|[_ Hret2]];
      rewrite Hret2; clear Hret2; simpl; [|done].
    apply Exists_app in Hbad as [Hbad|Hbad];
      apply Exists_exists in Hbad as (poly & Hin & Hpoly); destruct Hpoly.
    + rewrite Forall_forall in Hall1. by apply Hall1.
    + rewrite Forall_forall in Hall2. by apply Hall2.
Qed.

(** X3: a multi-polygon with the single two-dimensional part [p] flattens to
    the flattening of the polygon [p] with one gap sentinel appended to each
    sequence. *)
Theorem single_part_multipolygon {num : Type} (p : polygon num) (xs ys : path num) :
  is_2d (coords (exterior p)) →
  extract_coordinates (Polygon p) = Ok (xs, ys) →
  extract_coordinates (MultiPolygon [p]) = Ok (xs ++ [None], ys ++ [None]).
Proof.
  intros H2d. rewrite extract_coordinates_Polygon.
  destruct (ring_length (coords (exterior p))) eqn:Hlen; [done|].
  intros [= <- <-].
  change (extract_coordinates (MultiPolygon [p])) with (extend_loop [p] [] []).
  rewrite extend_loop_unpackable.
  - unfold gapped, ring_then_gap. simpl. by rewrite !app_nil_r.
  - constructor; [|constructor]. split; [done|]. by rewrite Hlen.
Qed.

Lemma single_part_multipolygon_witness :
  is_2d (coords (exterior triangle_a))
  ∧ extract_coordinates (Polygon triangle_a)
    = Ok ([Some 0; Some 1; Some 1]%Z, [Some 0; Some 0; Some 1]%Z)
  ∧ extract_coordinates (MultiPolygon [triangle_a])
    = Ok ([Some 0; Some 1; Some 1]%Z ++ [None], [Some 0; Some 0; Some 1]%Z ++ [None]).
Proof.
  split; [exact I|]. split; [reflexivity|].
  apply (single_part_multipolygon triangle_a); [exact I|reflexivity].
Defined.

(** X4: the two branches disagree on coordinates with a z-value.  A polygon
    whose non-empty exterior ring holds 3-tuples flattens to its x's and y's
    when it is a [Polygon], but makes every [MultiPolygon] that contains it
    raise [ValueError]. *)
Theorem polygon_z_asymmetry {num : Type} (p : polygon num) (geoms : list (polygon num)) :
  ¬ is_2d (coords (exterior p)) →
  ring_length (coords (exterior p)) ≠ 0%nat →
  p ∈ geoms →
  extract_coordinates (Polygon p)
    = Ok (Some <$> ring_xs (coords (exterior p)), Some <$> ring_ys (coords (exterior p)))
  ∧ extract_coordinates (MultiPolygon geoms) = Raise ValueError.
Proof.
  intros H3d Hlen Hin. split.
  - rewrite extract_coordinates_Polygon.
    by destruct (ring_length (coords (exterior p))).
  - simpl extract_coordinates.
    destruct (extend_loop_outcome geoms [] []) as [[Hall _]|[_ ->]]; [|done].
    rewrite Forall_forall in Hall. by destruct (Hall p Hin) as [H2d _].
Qed.

Lemma polygon_z_asymmetry_witness :
  ¬ is_2d (coords (exterior polygon_z))
  ∧ ring_length (coords (exterior polygon_z)) ≠ 0%nat
  ∧ polygon_z ∈ [triangle_a; polygon_z]
  ∧ extract_coordinates (Polygon polygon_z)
    = Ok (Some <$> ring_xs (coords (exterior polygon_z)),
          Some <$> ring_ys (coords (exterior polygon_z)))
  ∧ extract_coordinates (MultiPolygon [triangle_a; polygon_z]) = Raise ValueError.
Proof.
  assert (¬ is_2d (coords (exterior polygon_z))) as H3d by (simpl; tauto).
  assert (ring_length (coords (exterior polygon_z)) ≠ 0%nat) as Hlen
    by (simpl; discriminate).
  assert (polygon_z ∈ [triangle_a; polygon_z]) as Hin
    by (apply list_elem_of_further, list_elem_of_here).
  split; [exact H3d|]. split; [exact Hlen|]. split; [exact Hin|].
  exact (polygon_z_asymmetry polygon_z [triangle_a; polygon_z] H3d Hlen Hin).
Defined.

(** X5: the flattening of a multi-polygon loses no exterior ring.  Two
    multi-polygons that flatten to the same pair of sequences have the same
    exterior-ring coordinates, sub-polygon by sub-polygon. *)
Theorem multipolygon_flattening_injective {num : Type}
    (geoms1 geoms2 : list (polygon num)) (v : path num * path num) :
  extract_coordinates (MultiPolygon geoms1) = Ok v →
  extract_coordinates (MultiPolygon geoms2) = Ok v →
  (λ poly, coords (exterior poly)) <$> geoms1
  = (λ poly, coords (exterior poly)) <$> geoms2.
Proof.
  simpl extract_coordinates.
  destruct (extend_loop_outcome geoms1 [] []) as [[Hall1 ->]|[_ ->]]; [|done].
  destruct (extend_loop_outcome geoms2 [] []) as [[Hall2 ->]|[_ ->]]; [|done].
  simpl. intros [= <-] [= Hxs Hys].
  apply rings_2d_inj; [done..| |]; by apply gapped_inj.
Qed.

Lemma multipolygon_flattening_injective_witness :
  extract_coordinates (MultiPolygon [triangle_a; triangle_b])
    = Ok ([Some 0; Some 1; Some 1; None; Some 2; Some 3; Some 3; None]%Z,
          [Some 0; Some 0; Some 1; None; Some 2; Some 2; Some 3; None]%Z)
  ∧ extract_coordinates (MultiPolygon [triangle_a_with_hole; triangle_b])
    = Ok ([Some 0; Some 1; Some 1; None; Some 2; Some 3; Some 3; None]%Z,
          [Some 0; Some 0; Some 1; None; Some 2; Some 2; Some 3; None]%Z)
  ∧ (λ poly, coords (exterior poly)) <$> [triangle_a; triangle_b]
    = (λ poly, coords (exterior poly)) <$> [triangle_a_with_hole; triangle_b].
Proof.
  split; [reflexivity|]. split; [reflexivity|].
  apply (multipolygon_flattening_injective [triangle_a; triangle_b]
           [triangle_a_with_hole; triangle_b] _ eq_refl eq_refl).
Defined.

(** ** The selection: the offered names, and how the result depends on the
    selection *)

Section SelectionFacts.
Implicit Types (gdf : GeoDataFrame) (sel : list string) (r : region).

Lemma NoDup_unique (s : list string) : NoDup (unique s).
Proof.
  induction s as [|x s IH]; simpl; [constructor|].
  apply NoDup_cons. split; [|by apply NoDup_filter].
  intros [Hne _]%list_elem_of_filter. by apply Hne.
Qed.

Lemma name_selected_ext sel1 sel2 r :
  (∀ n : string, n ∈ sel1 ↔ n ∈ sel2) →
  name_selected sel1 r ↔ name_selected sel2 r.
Proof.
  intros Hsame. unfold name_selected.
  split; intros (n & Hn & Hin); exists n; (split; [done|]); by apply Hsame.
Qed.

Lemma selected_gdf_ext gdf sel1 sel2 :
  (∀ n : string, n ∈ sel1 ↔ n ∈ sel2) →
  selected_gdf gdf sel1 = selected_gdf gdf sel2.
Proof.
  intros Hsame. rewrite !selected_gdf_filter.
  apply list_filter_iff. intros r. by apply name_selected_ext.
Qed.

Lemma selected_gdf_narrow gdf sel1 sel2 :
  (∀ n : string, n ∈ sel1 → n ∈ sel2) →
  selected_gdf gdf sel1 = filter (name_selected sel1) (selected_gdf gdf sel2).
Proof.
  intros Hsub. rewrite !selected_gdf_filter, list_filter_filter.
  apply list_filter_iff. intros r. split; [|tauto].
  intros Hr. split; [done|]. destruct Hr as (n & Hn & Hin).
  exists n. split; [done|]. by apply Hsub.
Qed.

(** The running total from any start is the start plus the sum. *)
Lemma fold_add_cell_start (s : list (option Q)) (acc : Q) :
  (fold_left add_cell s acc == acc + Series_sum s)%Q.
Proof.
  unfold Series_sum. revert acc. induction s as [|a s IH]; intros acc; simpl.
  - ring.
  - pose proof (IH (add_cell acc a)) as H1.
    pose proof (IH (add_cell 0 a)) as H2.
    destruct a as [v|]; simpl in *; lra.
Qed.

Lemma Series_sum_cons (a : option Q) (s : list (option Q)) :
  (Series_sum (a :: s) == add_cell 0 a + Series_sum s)%Q.
Proof. unfold Series_sum at 1. simpl. apply fold_add_cell_start. Qed.

Lemma Series_sum_nonneg (s : list (option Q)) :
  (∀ a : Q, Some a ∈ s → (0 <= a)%Q) → (0 <= Series_sum s)%Q.
Proof.
  induction s as [|c s IH]; intros Hpos; [done|].
  rewrite Series_sum_cons.
  assert (0 <= Series_sum s)%Q as Hs.
  { apply IH. intros a Ha. apply Hpos. by right. }
  destruct c as [v|]; simpl; [|lra].
  assert (0 <= v)%Q by (apply Hpos; by left). lra.
Qed.

Lemma selected_areas_nonneg gdf sel :
  (∀ r a, r ∈ gdf → Area r = Some a → (0 <= a)%Q) →
  ∀ a : Q, Some a ∈ Area <$> selected_gdf gdf sel → (0 <= a)%Q.
Proof.
  intros Hpos a (r & Ha & Hr)%list_elem_of_fmap.
  rewrite selected_gdf_filter in Hr. apply list_elem_of_filter in Hr as [_ Hr].
  by apply (Hpos r a).
Qed.

End SelectionFacts.

(** X6: the options of the selection control are exactly the names that
    occur in the table, each once, in ascending order; missing names are not
    offered. *)
Theorem region_names_options (gdf : GeoDataFrame) :
  Sorted String.le (region_names gdf)
  ∧ NoDup (region_names gdf)
  ∧ ∀ n : string, n ∈ region_names gdf ↔ ∃ r, r ∈ gdf ∧ REGION_NAM r = Some n.
Proof.
  split_and!.
  - apply region_names_sorted.
  - unfold region_names, sorted. rewrite merge_sort_Permutation. apply NoDup_unique.
  - apply elem_of_region_names.
Qed.

(** X7: when the selection is made of offered names, as the multi-select
    control guarantees, every selected name has at least one row in the
    filtered table; so for a non-empty selection the attribute table shown is
    never empty. *)
Theorem offered_selection_matches (gdf : GeoDataFrame) (sel : list string) :
  (∀ n : string, n ∈ sel → n ∈ region_names gdf) →
  (∀ n : string, n ∈ sel → ∃ r, r ∈ selected_gdf gdf sel ∧ REGION_NAM r = Some n)
  ∧ (sel ≠ [] → ∃ d, selection_block gdf sel = Some d ∧ dataframe d ≠ []).
Proof.
  intros Hoffered.
  assert (∀ n : string, n ∈ sel →
            ∃ r, r ∈ selected_gdf gdf sel ∧ REGION_NAM r = Some n) as Hrows.
  { intros n Hn. destruct (proj1 (elem_of_region_names gdf n) (Hoffered n Hn))
      as (r & Hr & Hname).
    exists r. split; [|done]. rewrite selected_gdf_filter.
    apply list_elem_of_filter. split; [|done]. by exists n. }
  split; [done|]. intros Hne. destruct sel as [|n sel]; [done|].
  eexists. split; [reflexivity|]. simpl.
  destruct (Hrows n) as (r & Hr & _); [by left|].
  intros Hnil. apply fmap_nil_inv in Hnil. rewrite Hnil in Hr.
  by apply not_elem_of_nil in Hr.
Qed.

Lemma offered_selection_matches_witness :
  (∀ n : string, n ∈ ["C"; "A"] → n ∈ region_names sample_gdf)
  ∧ (∀ n : string, n ∈ ["C"; "A"] →
       ∃ r, r ∈ selected_gdf sample_gdf ["C"; "A"] ∧ REGION_NAM r = Some n).
Proof.
  assert (∀ n : string, n ∈ ["C"; "A"] → n ∈ region_names sample_gdf) as Hoffered.
  { intros n Hn. repeat (apply elem_of_cons in Hn as [->|Hn]).
    - by vm_compute; repeat constructor.
    - by vm_compute; repeat constructor.
    - by apply not_elem_of_nil in Hn. }
  split; [exact Hoffered|].
  exact (proj1 (offered_selection_matches sample_gdf ["C"; "A"] Hoffered)).
Defined.

(** X8: the result depends only on which names are selected, not on their
    order or on repetitions in the selection list: two selections with the
    same elements give the same filtered rows, the same attribute view and the
    same selected area. *)
Theorem selection_order_irrelevant (gdf : GeoDataFrame) (sel1 sel2 : list string) :
  (∀ n : string, n ∈ sel1 ↔ n ∈ sel2) →
  selected_gdf gdf sel1 = selected_gdf gdf sel2
  ∧ attribute_view (selected_gdf gdf sel1) = attribute_view (selected_gdf gdf sel2)
  ∧ selected_area gdf sel1 = selected_area gdf sel2.
Proof.
  intros Hsame. pose proof (selected_gdf_ext gdf sel1 sel2 Hsame) as Heq.
  unfold selected_area. by rewrite Heq.
Qed.

Lemma selection_order_irrelevant_witness :
  (∀ n : string, n ∈ ["C"; "A"; "C"] ↔ n ∈ ["A"; "C"])
  ∧ selected_gdf sample_gdf ["C"; "A"; "C"] = selected_gdf sample_gdf ["A"; "C"]
  ∧ attribute_view (selected_gdf sample_gdf ["C"; "A"; "C"])
    = attribute_view (selected_gdf sample_gdf ["A"; "C"])
  ∧ selected_area sample_gdf ["C"; "A"; "C"] = selected_area sample_gdf ["A"; "C"].
Proof.
  assert (∀ n : string, n ∈ ["C"; "A"; "C"] ↔ n ∈ ["A"; "C"]) as Hsame.
  { intros n. rewrite !elem_of_cons. pose proof (not_elem_of_nil n). tauto. }
  split; [exact Hsame|].
  exact (selection_order_irrelevant sample_gdf ["C"; "A"; "C"] ["A"; "C"] Hsame).
Defined.

(** X9: selecting more names never removes a row and, with the sums taken
    over the rationals and no area negative, never lowers the selected area:
    for a selection contained in another, the filtered rows of the first are
    a sub-sequence of those of the second and, over the rationals, its
    selected area is at most the other's. *)
Theorem selection_monotone (gdf : GeoDataFrame) (sel1 sel2 : list string) :
  (∀ n : string, n ∈ sel1 → n ∈ sel2) →
  sublist (selected_gdf gdf sel1) (selected_gdf gdf sel2)
  ∧ ((∀ r a, r ∈ gdf → Area r = Some a → (0 <= a)%Q) →
     (selected_area gdf sel1 <= selected_area gdf sel2)%Q).
Proof.
  intros Hsub. pose proof (selected_gdf_narrow gdf sel1 sel2 Hsub) as Hnarrow.
  split.
  - rewrite Hnarrow. apply sublist_filter.
  - intros Hpos. unfold selected_area, Series_sum. rewrite Hnarrow.
    apply selected_total_le; [|apply Qle_refl].
    intros r a Hr. apply Hpos. rewrite selected_gdf_filter in Hr.
    by apply list_elem_of_filter in Hr as [_ Hr].
Qed.

Lemma selection_monotone_witness :
  (∀ n : string, n ∈ ["A"] → n ∈ ["A"; "C"])
  ∧ (∀ r a, r ∈ sample_gdf → Area r = Some a → (0 <= a)%Q)
  ∧ sublist (selected_gdf sample_gdf ["A"]) (selected_gdf sample_gdf ["A"; "C"])
  ∧ (selected_area sample_gdf ["A"] <= selected_area sample_gdf ["A"; "C"])%Q.
Proof.
  assert (∀ n : string, n ∈ ["A"] → n ∈ ["A"; "C"]) as Hsub.
  { intros n Hn. apply list_elem_of_singleton in Hn as ->. by left. }
  assert (∀ r a, r ∈ sample_gdf → Area r = Some a → (0 <= a)%Q) as Hpos.
  { intros r a Hr Ha. unfold sample_gdf in Hr.
    repeat (apply elem_of_cons in Hr as [->|Hr]);
      [injection Ha as <-; discriminate ..|].
    by apply not_elem_of_nil in Hr. }
  split; [exact Hsub|]. split; [exact Hpos|].
  destruct (selection_monotone sample_gdf ["A"] ["A"; "C"] Hsub) as [Hrows Harea].
  exact (conj Hrows (Harea Hpos)).
Defined.

(** X10: when no area is negative, both values handed to the pie chart, the
    selected area and the remaining area, are non-negative. *)
Theorem pie_values_nonneg (gdf : GeoDataFrame) (sel : list string) :
  (∀ r a, r ∈ gdf → Area r = Some a → (0 <= a)%Q) →
  (0 <= selected_area gdf sel)%Q
  ∧ (0 <= remainder gdf sel)%Q
  ∧ (∀ d, selection_block gdf sel = Some d →
     (0 <= fst (pie_values d))%Q ∧ (0 <= snd (pie_values d))%Q).
Proof.
  intros Hpos.
  assert (0 <= selected_area gdf sel)%Q as Hsel.
  { apply Series_sum_nonneg. by apply selected_areas_nonneg. }
  assert (0 <= remainder gdf sel)%Q as Hrem.
  { unfold remainder.
    assert (selected_area gdf sel <= total_area gdf)%Q; [|lra].
    unfold selected_area, total_area, Series_sum. rewrite selected_gdf_filter.
    apply selected_total_le; [done|apply Qle_refl]. }
  split_and!; [done..|].
  intros d. destruct sel; [done|]. by intros [= <-].
Qed.

Lemma pie_values_nonneg_witness :
  (∀ r a, r ∈ sample_gdf → Area r = Some a → (0 <= a)%Q)
  ∧ (0 <= selected_area sample_gdf ["A"; "C"])%Q
  ∧ (0 <= remainder sample_gdf ["A"; "C"])%Q.
Proof.
  assert (∀ r a, r ∈ sample_gdf → Area r = Some a → (0 <= a)%Q) as Hpos.
  { intros r a Hr Ha. unfold sample_gdf in Hr.
    repeat (apply elem_of_cons in Hr as [->|Hr]);
      [injection Ha as <-; discriminate ..|].
    by apply not_elem_of_nil in Hr. }
  split; [exact Hpos|].
  destruct (pie_values_nonneg sample_gdf ["A"; "C"] Hpos) as (Hsel & Hrem & _).
  exact (conj Hsel Hrem).
Defined.

(** X11: the selected area is additive over selections that share no name:
    the area of the two selections together is the sum of their areas (over
    the rationals). *)
Theorem selected_area_additive (gdf : GeoDataFrame) (sel1 sel2 : list string) :
  (∀ n : string, n ∈ sel1 → n ∉ sel2) →
  (selected_area gdf (sel1 ++ sel2)
   == selected_area gdf sel1 + selected_area gdf sel2)%Q.
Proof.
  intros Hdisj. unfold selected_area. rewrite !selected_gdf_filter.
  induction gdf as [|r gdf IH]; [done|].
  assert (name_selected (sel1 ++ sel2) r
          ↔ name_selected sel1 r ∨ name_selected sel2 r) as Hor.
  { unfold name_selected. split.
    - intros (n & Hn & [?|?]%elem_of_app); [left|right]; by exists n.
    - intros [(n & Hn & ?)|(n & Hn & ?)]; exists n;
        (split; [done|]); apply elem_of_app; tauto. }
  assert (¬ (name_selected sel1 r ∧ name_selected sel2 r)) as Hnot.
  { intros [(n & Hn & H1) (m & Hm & H2)]. rewrite Hn in Hm.
    injection Hm as <-. by apply (Hdisj n). }
  rewrite !filter_cons.
  destruct (decide (name_selected (sel1 ++ sel2) r)) as [H12|H12];
    destruct (decide (name_selected sel1 r)) as [H1|H1];
    destruct (decide (name_selected sel2 r)) as [H2|H2];
    try tauto; rewrite ?fmap_cons, ?Series_sum_cons, IH; ring.
Qed.

Lemma selected_area_additive_witness :
  (∀ n : string, n ∈ ["A"] → n ∉ ["C"])
  ∧ (selected_area sample_gdf (["A"] ++ ["C"])
     == selected_area sample_gdf ["A"] + selected_area sample_gdf ["C"])%Q.
Proof.
  assert (∀ n : string, n ∈ ["A"] → n ∉ ["C"]) as Hdisj.
  { intros n Hn. apply list_elem_of_singleton in Hn as ->.
    intros Hin. apply list_elem_of_singleton in Hin. discriminate Hin. }
  split; [exact Hdisj|].
  exact (selected_area_additive sample_gdf ["A"] ["C"] Hdisj).
Defined.

(** ** The map of the regions *)

Section MapFacts.
Implicit Types (gdf rows : GeoDataFrame) (sel : list string) (row : region).
Implicit Types (fig ts : list Scatter).

Lemma returns_iff_flattens {num : Type} (g : geometry num) :
  returns (extract_coordinates g) ↔ flattens g.
Proof.
  destruct g as [p|geoms|k]; simpl flattens.
  - rewrite extract_coordinates_Polygon.
    by destruct (ring_length (coords (exterior p))).
  - simpl extract_coordinates.
    destruct (extend_loop_outcome geoms [] []) as [[Hall ->]|[Hbad ->]]; simpl.
    + done.
    + split; [done|]. intros Hall.
      apply Exists_exists in Hbad as (poly & Hin & Hpoly).
      destruct Hpoly. rewrite Forall_forall in Hall. by apply Hall.
  - done.
Qed.

Lemma is_selected_iff row sel : is_selected row sel = true ↔ name_selected sel row.
Proof.
  unfold is_selected, name_selected. destruct (REGION_NAM row) as [n|].
  - rewrite bool_decide_eq_true. split; [by exists n|].
    by intros (m & [= <-] & Hm).
  - split; [done|]. by intros (m & [=] & _).
Qed.

(** The loop appends one matching trace per row, or stops at the first row
    whose geometry does not flatten. *)
Lemma add_region_traces_outcome rows sel fig :
  (∃ ts, add_region_traces rows sel fig = Ok (fig ++ ts)
         ∧ Forall2 (trace_of_row sel) rows ts)
  ∨ (∃ before row after e,
       rows = before ++ row :: after
       ∧ Forall (λ row', returns (extract_coordinates (row_geometry row'))) before
       ∧ extract_coordinates (row_geometry row) = Raise e
       ∧ add_region_traces rows sel fig = Raise e).
Proof.
  revert fig. induction rows as [|row rows IH]; intros fig.
  - left. exists []. simpl. rewrite app_nil_r. split; [done|constructor].
  - simpl. destruct (extract_coordinates (row_geometry row)) as [[x y]|e] eqn:Hrow.
    + destruct (IH (fig ++
          [ {| trace_x := x; trace_y := y;
               fillcolor := if is_selected row sel then lightblue else lightgrey;
               text := attributes row |} ]))
        as [(ts & Hret & Hall)|(before & row' & after & e & -> & Hbefore & He & Hraise)].
      * left. eexists (_ :: ts). rewrite Hret, <- (assoc_L (++)). split; [done|].
        constructor; [|done]. split; [done|]. split; [|done]. simpl.
        rewrite <- is_selected_iff. by destruct (is_selected row sel).
      * right. exists (row :: before), row', after, e.
        split_and!; [done| |done..]. constructor; [|done]. by rewrite Hrow.
    + right. exists [], row, rows, e. split_and!; [done|constructor|done..].
Qed.

Lemma highlighted_rows_selected gdf sel ts :
  Forall2 (trace_of_row sel) gdf ts → highlighted_rows gdf ts = selected_gdf gdf sel.
Proof.
  rewrite selected_gdf_filter. unfold highlighted_rows.
  induction 1 as [|row t gdf ts (_ & Hfill & _) _ IH]; [done|].
  rewrite fmap_cons. simpl. rewrite IH. case_bool_decide as Hblue.
  - rewrite filter_cons_True; [done|]. by apply Hfill.
  - rewrite filter_cons_False; [done|]. intros Hsel. by apply Hblue, Hfill.
Qed.

(** The first candidate of a filtered list. *)
Lemma filter_head {A : Type} (P : A → Prop) `{!∀ a, Decision (P a)} (l : list A) (a : A) :
  filter P l !! 0%nat = Some a
  ↔ ∃ before after, l = before ++ a :: after ∧ P a ∧ Forall (λ b, ¬ P b) before.
Proof.
  induction l as [|b l IH].
  - split; [done|]. intros (before & after & Heq & _). by destruct before.
  - rewrite filter_cons. destruct (decide (P b)) as [Hb|Hb]; simpl.
    + split.
      * intros [= <-]. exists [], l. split_and!; [done..|constructor].
      * intros ([|c before] & after & Heq & Ha & Hbefore); simplify_eq/=; [done|].
        by inversion Hbefore.
    + rewrite IH. split.
      * intros (before & after & -> & Ha & Hbefore).
        exists (b :: before), after. split_and!; [done..|by constructor].
      * intros ([|c before] & after & Heq & Ha & Hbefore); simplify_eq/=; [done|].
        exists before, after. split_and!; [done..|by inversion Hbefore].
Qed.

Lemma filter_head_None {A : Type} (P : A → Prop) `{!∀ a, Decision (P a)} (l : list A) :
  filter P l !! 0%nat = None ↔ Forall (λ b, ¬ P b) l.
Proof.
  induction l as [|b l IH]; [by split; [constructor|]|].
  rewrite filter_cons. destruct (decide (P b)) as [Hb|Hb]; simpl.
  - split; [done|]. by inversion 1.
  - rewrite IH. split; [by constructor|by inversion 1].
Qed.

Lemma list_ascii_of_string_app (s1 s2 : string) :
  String.list_ascii_of_string (s1 +:+ s2)
  = String.list_ascii_of_string s1 ++ String.list_ascii_of_string s2.
Proof. induction s1 as [|c s1 IH]; simpl; [done|]. by rewrite <- IH. Qed.

Lemma endswith_iff (s suffix : string) :
  endswith s suffix = true ↔ ∃ start, s = start +:+ suffix.
Proof.
  unfold endswith. rewrite bool_decide_eq_true. split.
  - intros [k Hk]. exists (String.string_of_list_ascii k).
    rewrite <- (String.string_of_list_ascii_of_string s), Hk.
    rewrite <- (String.string_of_list_ascii_of_string
                  (String.string_of_list_ascii k +:+ suffix)).
    by rewrite list_ascii_of_string_app, String.list_ascii_of_string_of_list_ascii.
  - intros [start ->]. exists (String.list_ascii_of_string start).
    apply list_ascii_of_string_app.
Qed.

End MapFacts.

(** X12: the map loop draws one trace per region, in table order, each with
    the region's flattened boundary, filled light blue exactly when the
    region's name is selected; it has a result exactly when every region's
    geometry flattens, and otherwise raises the exception of the first region
    whose geometry does not, so that no map is drawn. *)
Theorem region_traces_outcome (gdf : GeoDataFrame) (sel : list string) :
  (returns (region_traces gdf sel)
   ↔ ∀ row, row ∈ gdf → flattens (row_geometry row))
  ∧ (∀ ts, region_traces gdf sel = Ok ts →
       length ts = length gdf ∧ Forall2 (trace_of_row sel) gdf ts)
  ∧ (∀ e, region_traces gdf sel = Raise e →
       ∃ before row after,
         gdf = before ++ row :: after
         ∧ (∀ row', row' ∈ before → flattens (row_geometry row'))
         ∧ extract_coordinates (row_geometry row) = Raise e).
Proof.
  unfold region_traces.
  destruct (add_region_traces_outcome gdf sel [])
    as [(ts & Hret & Hall)|(before & row & after & e & -> & Hbefore & He & Hraise)].
  - rewrite Hret. simpl. split_and!.
    + split; [|done]. intros _ row Hrow.
      apply list_elem_of_lookup in Hrow as [i Hi].
      destruct (Forall2_lookup_l _ _ _ _ _ Hall Hi) as (t & _ & Ht & _).
      apply returns_iff_flattens. by rewrite Ht.
    + intros ts' [= <-]. split; [|done]. symmetry. by eapply Forall2_length.
    + intros e. discriminate.
  - rewrite Hraise. simpl. split_and!.
    + split; [done|]. intros Hall.
      assert (flattens (row_geometry row)) as Hrow.
      { apply Hall, elem_of_app. right. by left. }
      apply returns_iff_flattens in Hrow. by rewrite He in Hrow.
    + intros ts. discriminate.
    + intros e' [= <-]. exists before, row, after. split_and!; [done| |done].
      intros row' Hrow'. apply returns_iff_flattens.
      rewrite Forall_forall in Hbefore. by apply Hbefore.
Qed.

(** One region without a coordinate in its ring stops the whole map. *)
Example empty_polygon_stops_the_map :
  region_traces gdf_with_empty_polygon ["A"] = Raise IndexError.
Proof. reflexivity. Qed.

(** X13: the map and the attribute table agree.  Whenever the map is drawn,
    the regions filled light blue are exactly the rows of the filtered table
    of line 117, in the same order. *)
Theorem highlight_matches_table (gdf : GeoDataFrame) (sel : list string)
    (ts : list Scatter) :
  region_traces gdf sel = Ok ts →
  highlighted_rows gdf ts = selected_gdf gdf sel.
Proof.
  unfold region_traces. intros Hts.
  destruct (add_region_traces_outcome gdf sel [])
    as [(ts' & Hret & Hall)|(_ & _ & _ & e & _ & _ & _ & Hraise)].
  - rewrite Hret in Hts. injection Hts as <-. by apply highlighted_rows_selected.
  - rewrite Hraise in Hts. discriminate Hts.
Qed.

Lemma highlight_matches_table_witness :
  (∃ ts, region_traces sample_gdf ["A"; "C"] = Ok ts
         ∧ highlighted_rows sample_gdf ts = selected_gdf sample_gdf ["A"; "C"]).
Proof.
  destruct (region_traces sample_gdf ["A"; "C"]) as [ts|e] eqn:Hts.
  - exists ts. split; [reflexivity|].
    exact (highlight_matches_table sample_gdf ["A"; "C"] ts Hts).
  - exfalso. vm_compute in Hts. discriminate Hts.
Defined.

(** X14: line 51 picks the first entry of the directory listing whose name
    ends with [.shp] (an entry [f] ends with it when [f] is some text followed
    by [.shp]); it raises [IndexError] exactly when no entry does, and raises
    nothing else. *)
Theorem shp_file_first (listing : list string) :
  (∀ f, shp_file listing = Ok f
        ↔ ∃ before after,
            listing = before ++ f :: after
            ∧ (∃ start, f = start +:+ ".shp")
            ∧ ∀ g, g ∈ before → ¬ ∃ start, g = start +:+ ".shp")
  ∧ (shp_file listing = Raise IndexError
     ↔ ∀ g, g ∈ listing → ¬ ∃ start, g = start +:+ ".shp")
  ∧ (∀ e, shp_file listing = Raise e → e = IndexError).
Proof.
  unfold shp_file, shp_candidates. split_and!.
  - intros f.
    destruct (filter (λ f0, endswith f0 ".shp" = true) listing !! 0%nat)
      as [f'|] eqn:Hhead.
    + split.
      * intros [= <-]. apply filter_head in Hhead
          as (before & after & -> & Hf & Hbefore).
        exists before, after. split_and!; [done|by apply endswith_iff|].
        intros g Hg Hends. rewrite Forall_forall in Hbefore.
        by apply (Hbefore g Hg), endswith_iff.
      * intros (before & after & -> & Hf & Hbefore). f_equal.
        assert (filter (λ f0, endswith f0 ".shp" = true) (before ++ f :: after)
                  !! 0%nat = Some f) as Hf'.
        { apply filter_head. exists before, after.
          split_and!; [done|by apply endswith_iff|].
          apply Forall_forall. intros g Hg Hends.
          by apply (Hbefore g Hg), endswith_iff. }
        rewrite Hhead in Hf'. by injection Hf'.
    + split; [done|]. intros (before & after & -> & Hf & Hbefore).
      apply filter_head_None in Hhead. rewrite Forall_forall in Hhead.
      destruct (Hhead f); [|by apply endswith_iff].
      apply elem_of_app. right. by left.
  - destruct (filter (λ f0, endswith f0 ".shp" = true) listing !! 0%nat)
      as [f'|] eqn:Hhead.
    + split; [done|]. intros Hnone.
      apply filter_head in Hhead as (before & after & -> & Hf & _).
      destruct (Hnone f'); [|by apply endswith_iff].
      apply elem_of_app. right. by left.
    + split; [|done]. intros _ g Hg Hends.
      apply filter_head_None in Hhead. rewrite Forall_forall in Hhead.
      by apply (Hhead g Hg), endswith_iff.
  - intros e. by destruct (_ !! _); intros [= <-].
Qed.

(** The match is on the exact suffix: upper-case extensions and side files
    such as [.shp.xml] are passed over. *)
Example shp_file_examples :
  shp_file ["BC.dbf"; "BC.shp.xml"; "BC.SHP"; "BC.shp"; "other.shp"] = Ok "BC.shp"
  ∧ shp_file ["BC.dbf"; "BC.SHP"; "BC.shx"] = Raise IndexError
  ∧ shp_file [] = Raise IndexError.
Proof. by vm_compute. Qed.

(** ** The district markers *)

Section MarkerFacts.
Implicit Types (s : list (option Q)) (acc c : option Q).





End MarkerFacts.



Example sample_marker_sizes :
  Series_max (District.Area <$> sample_df) = Some 40%Q
  ∧ Forall2 (λ size expected,
       match size, expected with
       | Some u, Some v => (u == v)%Q
       | None, None => True
       | _, _ => False
       end) (marker_sizes sample_df) [Some 10%Q; Some 25%Q; None].
Proof. split; [reflexivity|]. repeat constructor. Qed.

(** ** The summary charts *)

Global Instance by_name_total : Total by_name.
Proof. intros p q. unfold by_name. apply (total String.le). Qed.

Global Instance by_rate_total : Total by_rate.
Proof.
  intros p q. unfold by_rate.
  destruct (Qlt_le_dec (snd q) (snd p)) as [Hlt|Hle]; [right|left]; [|done].
  by apply Qlt_le_weak.
Qed.

Lemma elem_of_both_present (gdf : GeoDataFrame) (value : region → option Q)
    (n : string) (a : Q) :
  (n, a) ∈ omap (λ r, both_present (REGION_NAM r) (value r)) gdf
  ↔ ∃ r, r ∈ gdf ∧ REGION_NAM r = Some n ∧ value r = Some a.
Proof.
  rewrite list_elem_of_omap. unfold both_present. split.
  - intros (r & Hr & Hboth). exists r. split; [done|].
    destruct (REGION_NAM r), (value r); by simplify_eq.
  - intros (r & Hr & Hn & Ha). exists r. split; [done|]. by rewrite Hn, Ha.
Qed.

(** X16: the two summary charts.  The area chart lists exactly the regions
    that have both a name and an area, each row once, in ascending order of
    name; the rate chart lists exactly the regions that have both a name and a
    rate, each row once, in ascending order of rate.  Regions with a missing
    cell are left out. *)
Theorem summary_charts (gdf : GeoDataFrame) :
  (Sorted by_name (area_summary gdf)
   ∧ area_summary gdf ≡ₚ omap (λ r, both_present (REGION_NAM r) (Area r)) gdf
   ∧ ∀ (n : string) (a : Q),
       (n, a) ∈ area_summary gdf
       ↔ ∃ r, r ∈ gdf ∧ REGION_NAM r = Some n ∧ Area r = Some a)
  ∧ (Sorted by_rate (rate_summary gdf)
     ∧ rate_summary gdf ≡ₚ omap (λ r, both_present (REGION_NAM r) (Rate r)) gdf
     ∧ ∀ (n : string) (a : Q),
         (n, a) ∈ rate_summary gdf
         ↔ ∃ r, r ∈ gdf ∧ REGION_NAM r = Some n ∧ Rate r = Some a).
Proof.
  unfold area_summary, rate_summary. split; split_and!.
  - apply Sorted_merge_sort; apply _.
  - apply merge_sort_Permutation.
  - intros n a. rewrite merge_sort_Permutation. apply elem_of_both_present.
  - apply Sorted_merge_sort; apply _.
  - apply merge_sort_Permutation.
  - intros n a. rewrite merge_sort_Permutation. apply (elem_of_both_present gdf Rate).
Qed.

Example summary_charts_sample :
  area_summary gdf_with_gaps = [("A", 10%Q); ("B", 7%Q); ("C", 5%Q)]
  ∧ rate_summary gdf_with_gaps = [("C", 3%Q); ("A", 9%Q)].
Proof. by vm_compute. Qed.

(** ** The session flag over a whole session *)

Section SessionMore.
Implicit Types (ss : session_state) (clicks : list bool).

Lemma pressed_by_true clicks : pressed_by true clicks = replicate (length clicks) true.
Proof. induction clicks as [|c clicks IH]; simpl; [done|]. by rewrite IH. Qed.

Lemma session_other_keys clicks ss ss' (shown : list bool) (k : string) :
  session clicks ss = Ok (ss', shown) → k ≠ flag → ss' !! k = ss !! k.
Proof.
  revert ss shown. induction clicks as [|c clicks IH]; intros ss shown; simpl.
  - by intros [= <- _].
  - rewrite new_page_section_run.
    destruct (session clicks _) as [[ss'' l]|e] eqn:Hrest; [|done].
    intros [= <- _] Hk. rewrite (IH _ _ Hrest Hk). by rewrite lookup_insert_ne.
Qed.

End SessionMore.

(** X17: over a whole session the script never raises on the flag, never
    touches another key of the session state, and never resets the flag:
    once the flag is true, every later run renders the new page, whether or
    not the button is pressed again. *)
Theorem flag_never_reset (clicks : list bool) (ss : session_state) :
  ∃ ss' shown,
    session clicks ss = Ok (ss', shown)
    ∧ length shown = length clicks
    ∧ (∀ k : string, k ≠ flag → ss' !! k = ss !! k)
    ∧ (ss !! flag = Some true →
       shown = replicate (length clicks) true ∧ ss' !! flag = Some true).
Proof.
  destruct (session_run clicks ss) as (ss' & Hrun & Hflag).
  exists ss', (pressed_by (default false (ss !! flag)) clicks).
  split_and!; [done| | |].
  - clear Hrun Hflag. generalize (default false (ss !! flag)).
    induction clicks as [|c clicks IH]; intros b; simpl; [done|]. by rewrite IH.
  - intros k Hk. by eapply session_other_keys.
  - intros Hset. rewrite Hset in Hrun, Hflag |- *. simpl.
    split; [apply pressed_by_true|].
    destruct clicks as [|c clicks].
    + simpl in Hrun. by injection Hrun as <-.
    + by rewrite Hflag.
Qed.

(** ** The segments of a flattened multi-polygon *)

Section SegmentFacts.
Context {num : Type}.
Implicit Types (geoms : list (polygon num)) (xs ys rest : path num).

Lemma no_adjacent_gaps_number (v : num) xs :
  no_adjacent_gaps xs → no_adjacent_gaps (Some v :: xs).
Proof. intros Hxs [|i]; simpl; [done|]. apply Hxs. Qed.

Lemma no_adjacent_gaps_gap xs :
  no_empty_segment xs → no_adjacent_gaps (None :: xs).
Proof. intros [Hhead Hxs] [|i]; simpl; [done|]. apply Hxs. Qed.

Lemma no_adjacent_gaps_ring (ring : list num) rest :
  no_empty_segment rest → no_adjacent_gaps ((Some <$> ring) ++ None :: rest).
Proof.
  intros Hrest. induction ring as [|v ring IH]; simpl.
  - by apply no_adjacent_gaps_gap.
  - by apply no_adjacent_gaps_number.
Qed.

Lemma gapped_no_empty_segment (proj : CoordinateSequence num → list num) geoms :
  Forall (λ poly, proj (coords (exterior poly)) ≠ []) geoms →
  no_empty_segment (gapped proj geoms).
Proof.
  unfold gapped. induction 1 as [|poly geoms Hpoly _ IH]; simpl.
  - split; [done|]. by intros i.
  - unfold ring_then_gap at 1. rewrite <- (assoc_L (++)). simpl. split.
    + by destruct (proj (coords (exterior poly))).
    + by apply no_adjacent_gaps_ring.
Qed.

Lemma gapped_last (proj : CoordinateSequence num → list num) geoms :
  geoms ≠ [] → last (gapped proj geoms) = Some None.
Proof.
  intros Hne. destruct (exists_last Hne) as (front & poly & ->).
  rewrite gapped_app. unfold gapped at 2. simpl. rewrite app_nil_r.
  unfold ring_then_gap. by rewrite (assoc_L (++)), last_snoc.
Qed.

Lemma unpackable_rings_nonempty geoms :
  Forall unpackable geoms →
  Forall (λ poly, ring_xs (coords (exterior poly)) ≠ []) geoms
  ∧ Forall (λ poly, ring_ys (coords (exterior poly)) ≠ []) geoms.
Proof.
  intros Hall. split; eapply Forall_impl; try exact Hall; simpl.
  - intros poly [_ Hlen] Hnil. apply Hlen.
    by rewrite <- ring_xs_length, Hnil.
  - intros poly [_ Hlen] Hnil. apply Hlen.
    by rewrite <- ring_ys_length, Hnil.
Qed.

End SegmentFacts.

(** X18: a flattened multi-polygon has no empty segment.  Whenever
    [extract_coordinates] returns on a multi-polygon, neither sequence starts
    with a gap sentinel, no gap sentinel directly follows another, and, when
    there is at least one sub-polygon, both sequences end with a gap
    sentinel. *)
Theorem multipolygon_segments {num : Type} (geoms : list (polygon num))
    (xs ys : path num) :
  extract_coordinates (MultiPolygon geoms) = Ok (xs, ys) →
  no_empty_segment xs ∧ no_empty_segment ys
  ∧ (geoms ≠ [] → last xs = Some None ∧ last ys = Some None).
Proof.
  simpl extract_coordinates.
  destruct (extend_loop_outcome geoms [] []) as [[Hall ->]|[_ ->]]; [|done].
  simpl. intros [= <- <-].
  destruct (unpackable_rings_nonempty geoms Hall) as [Hxs Hys].
  split_and!; [by apply gapped_no_empty_segment..|].
  intros Hne. split; by apply gapped_last.
Qed.

Lemma multipolygon_segments_witness :
  extract_coordinates (MultiPolygon [triangle_a; triangle_b])
    = Ok ([Some 0; Some 1; Some 1; None; Some 2; Some 3; Some 3; None]%Z,
          [Some 0; Some 0; Some 1; None; Some 2; Some 2; Some 3; None]%Z)
  ∧ no_empty_segment [Some 0; Some 1; Some 1; None; Some 2; Some 3; Some 3; None]%Z
  ∧ no_empty_segment [Some 0; Some 0; Some 1; None; Some 2; Some 2; Some 3; None]%Z.
Proof.
  split; [reflexivity|].
  destruct (multipolygon_segments [triangle_a; triangle_b] _ _ eq_refl)
    as (Hxs & Hys & _).
  exact (conj Hxs Hys).
Defined.
